(** * ODP-EL toolchain: the normative model and the runtime engine

    A shallow embedding of [ODP/*.py] (the static normative model) and of
    [runtime/engine.py], [runtime/instances.py] and [runtime/tracer.py]
    (the execution engine and its tracer), followed by the properties of
    the engine.

    Conventions of the embedding.
    - Python dataclasses are records; [==] on them is the field-wise
      comparison generated by [@dataclass], which on the static model
      coincides with Leibniz equality and is written [bool_decide (a = b)].
    - [Dict[str, _]] that is only looked up by key is a [gmap string _];
      a dict whose insertion order is observed ([kwargs], artifact
      properties) is an association list with dict update.
    - An exception leaving a method is an [Raised] outcome that carries the
      engine state reached when it was raised (Python keeps the mutations).
    - [uuid.uuid4()] and [datetime.datetime.now()] are read from a [World]:
      the n-th draw and the n-th clock reading.
    - [print] output of [Engine._log] is not part of the state. *)

From Stdlib Require Import QArith.Qcanon Ascii String.
From stdpp Require Import base strings gmap list pretty.

Set Warnings "-register-all".

Local Open Scope string_scope.
Local Open Scope Z_scope.

(** ** ODP/parameter.py, ODP/event.py *)

(** [Parameter] is a reserved word of Rocq, hence [Param]. *)
Record Param := mkParam {
  param_name : string;
  param_type_hint : string
}.

#[global] Instance Param_eq_dec : EqDecision Param.
Proof. solve_decision. Defined.

(** [@dataclass(frozen=True) class Event]: [name] and the tuple [artifacts]. *)
Record Event := mkEvent {
  event_name : string;
  event_artifacts : list Param
}.

#[global] Instance Event_eq_dec : EqDecision Event.
Proof. solve_decision. Defined.

(** An operand of an [EventExpression] is an [Event] or a nested
    expression ([List[Union["EventExpression", Event]]]). *)
Inductive Operand (E : Type) : Type :=
  | OpEvent (ev : Event)
  | OpExpr (e : E).
Arguments OpEvent {E} ev.
Arguments OpExpr {E} e.

Inductive EventExpression : Type :=
  | EE (op : option string) (operands : list (Operand EventExpression)).

Definition ee_op (e : EventExpression) : option string :=
  match e with EE o _ => o end.
Definition ee_operands (e : EventExpression) : list (Operand EventExpression) :=
  match e with EE _ l => l end.

(** [EventExpression.is_leaf] *)
Definition is_leaf (e : EventExpression) : bool :=
  match e with
  | EE None [OpEvent _] => true
  | _ => false
  end.

(** [x in occurred] for a set of events. *)
Definition occurred_mem (ev : Event) (occurred : list Event) : bool :=
  bool_decide (ev ∈ occurred).

(** [EventExpression.evaluate] *)
Fixpoint evaluate (e : EventExpression) (occurred : list Event) : bool :=
  match e with
  | EE None [OpEvent ev] => occurred_mem ev occurred
  | EE o operands =>
      let operand_holds (x : Operand EventExpression) :=
        match x with
        | OpExpr sub => evaluate sub occurred
        | OpEvent ev => occurred_mem ev occurred
        end in
      if bool_decide (o = Some "AND") then forallb operand_holds operands
      else if bool_decide (o = Some "OR") then existsb operand_holds operands
      else false
  end.

(** Decidable equality of event expressions: the [==] of the dataclass
    (operator and operand lists compared element by element). *)
#[global] Instance EventExpression_eq_dec : EqDecision EventExpression.
Proof.
  unfold EqDecision, Decision. fix IH 1. intros [o1 l1] [o2 l2].
  assert (Hl : {l1 = l2} + {l1 <> l2}).
  { clear o1 o2. revert l2.
    induction l1 as [|x xs IHxs]; intros [|y ys];
      [left; reflexivity | right; discriminate | right; discriminate |].
    destruct (IHxs ys) as [Hxs|Hxs]; [|right; congruence].
    destruct x as [e1|s1], y as [e2|s2]; try (right; discriminate).
    - destruct (decide (e1 = e2)); [left|right]; congruence.
    - destruct (IH s1 s2); [left|right]; congruence. }
  destruct (decide (o1 = o2)); [|right; congruence].
  destruct Hl; [left|right]; congruence.
Defined.

(** ** ODP/guard.py, ODP/behavior.py *)

(** [Guard]: the raw expression text; its evaluation is [Guard_evaluate]
    below, once the evaluation context is defined. *)
Record Guard := mkGuard { raw : string }.

#[global] Instance Guard_eq_dec : EqDecision Guard.
Proof. solve_decision. Defined.

Inductive DeonticType := BURDEN | PERMIT | EMBARGO.

#[global] Instance DeonticType_eq_dec : EqDecision DeonticType.
Proof. solve_decision. Defined.

(** The class of a token template: [DeonticToken] itself or one of its
    subclasses [Burden], [Permit], [Embargo]. *)
Inductive TokenClass :=
  | ClassDeonticToken
  | ClassBurden
  | ClassPermit
  | ClassEmbargo.

#[global] Instance TokenClass_eq_dec : EqDecision TokenClass.
Proof. solve_decision. Defined.

(** [DeonticToken]: the class of the object and its dataclass fields.
    [token_type] is a field like the others: the subclass constructors
    set it, the constructor of [DeonticToken] takes it as given.
    [affected_role] refers to a [CommunityRole] of the same community; the
    engine reads only its [name], which is what the embedding keeps (the
    object graph is cyclic through it). *)
Record DeonticToken := mkDeonticToken {
  token_class : TokenClass;
  token_type : DeonticType;
  token_name : string;
  token_parameters : list string;
  affected_role : option string;
  pre_activation_guard : option Guard;
  activation_trigger : option Event;
  finish_expression : option EventExpression;
  post_event_guard : option Guard
}.

#[global] Instance DeonticToken_eq_dec : EqDecision DeonticToken.
Proof. solve_decision. Defined.

(** The constructors of the subclasses [Burden], [Permit], [Embargo]:
    each passes its own [token_type] and the keyword arguments it is
    given to the constructor of [DeonticToken]. *)
Definition Burden (name : string) (parameters : list string)
    (role : option string) (pre : option Guard) (trigger : option Event)
    (finish : option EventExpression) (post : option Guard) : DeonticToken :=
  mkDeonticToken ClassBurden BURDEN name parameters role pre trigger finish post.

Definition Permit (name : string) (parameters : list string)
    (role : option string) (pre : option Guard) (trigger : option Event)
    (finish : option EventExpression) (post : option Guard) : DeonticToken :=
  mkDeonticToken ClassPermit PERMIT name parameters role pre trigger finish post.

Definition Embargo (name : string) (parameters : list string)
    (role : option string) (pre : option Guard) (trigger : option Event)
    (finish : option EventExpression) (post : option Guard) : DeonticToken :=
  mkDeonticToken ClassEmbargo EMBARGO name parameters role pre trigger finish post.

(** [is_permit], [is_burden], [is_embargo] read the field [token_type]. *)
Definition is_permit (t : DeonticToken) : bool := bool_decide (token_type t = PERMIT).
Definition is_burden (t : DeonticToken) : bool := bool_decide (token_type t = BURDEN).
Definition is_embargo (t : DeonticToken) : bool := bool_decide (token_type t = EMBARGO).

(** [isinstance(template, Burden)], [.., Permit)], [.., Embargo)] test the
    class of the object, not its [token_type]. *)
Definition isinstance_Burden (t : DeonticToken) : bool :=
  bool_decide (token_class t = ClassBurden).

Definition isinstance_Permit (t : DeonticToken) : bool :=
  bool_decide (token_class t = ClassPermit).

Definition isinstance_Embargo (t : DeonticToken) : bool :=
  bool_decide (token_class t = ClassEmbargo).

Inductive DelegatedToken := DELEGATED_PERMIT | DELEGATED_BURDEN.

#[global] Instance DelegatedToken_eq_dec : EqDecision DelegatedToken.
Proof. solve_decision. Defined.

(** [ActionCall]; the called role is kept by name. *)
Record ActionCall := mkActionCall {
  call_role : string;
  call_action : string;
  call_arguments : list string
}.

#[global] Instance ActionCall_eq_dec : EqDecision ActionCall.
Proof. solve_decision. Defined.

(** The subclasses of [Action].  [Delegation.agent] is the role the
    recipient must fulfil; the engine reads only [action.agent.name], so
    the role is kept by name ([None] for [agent=None]). *)
Inductive ActionClass :=
  | BasicAction (return_type : option string) (calls : list ActionCall)
  | SpeechAct (tokens : list DeonticToken)
  | Authorization (tokens : list DeonticToken)
  | Declaration (tokens : list DeonticToken)
  | Delegation (tokens : list DeonticToken) (delegated_type : DelegatedToken)
               (delegated_name : string) (agent : option string).

#[global] Instance ActionClass_eq_dec : EqDecision ActionClass.
Proof. solve_decision. Defined.

Record Action := mkAction {
  action_name : string;
  action_parameters : list Param;
  guard : option Guard;
  trigger_event : option Event;
  action_class : ActionClass
}.

#[global] Instance Action_eq_dec : EqDecision Action.
Proof. solve_decision. Defined.

(** [isinstance(action, SpeechAct)]: [Authorization], [Declaration] and
    [Delegation] are subclasses of [SpeechAct]. *)
Definition isinstance_SpeechAct (a : Action) : bool :=
  match action_class a with
  | BasicAction _ _ => false
  | _ => true
  end.

Definition isinstance_Delegation (a : Action) : bool :=
  match action_class a with
  | Delegation _ _ _ _ => true
  | _ => false
  end.

(** [action.tokens] of a speech act. *)
Definition action_tokens (a : Action) : list DeonticToken :=
  match action_class a with
  | BasicAction _ _ => []
  | SpeechAct ts | Authorization ts | Declaration ts | Delegation ts _ _ _ => ts
  end.

Record CommunityRole := mkCommunityRole {
  role_name : string;
  role_description : option string;
  role_actions : list Action;
  role_tokens : list DeonticToken
}.

#[global] Instance CommunityRole_eq_dec : EqDecision CommunityRole.
Proof. solve_decision. Defined.

(** [CommunityRole.get_action]: the first action of that name. *)
Fixpoint find_action (actions : list Action) (name : string) : option Action :=
  match actions with
  | [] => None
  | a :: rest =>
      if bool_decide (action_name a = name) then Some a else find_action rest name
  end.

Definition CommunityRole_get_action (r : CommunityRole) (name : string) : option Action :=
  find_action (role_actions r) name.

(** [CommunityRole.get_token_by_name]: the first token of that name. *)
Fixpoint find_token (tokens : list DeonticToken) (name : string) : option DeonticToken :=
  match tokens with
  | [] => None
  | t :: rest =>
      if bool_decide (token_name t = name) then Some t else find_token rest name
  end.

Definition get_token_by_name (r : CommunityRole) (name : string) : option DeonticToken :=
  find_token (role_tokens r) name.

(** [get_obligations], [get_permissions], [get_embargoes]: the tokens of
    the role that are instances of [Burden], [Permit], [Embargo]. *)
Definition get_obligations (r : CommunityRole) : list DeonticToken :=
  List.filter isinstance_Burden (role_tokens r).

Definition get_permissions (r : CommunityRole) : list DeonticToken :=
  List.filter isinstance_Permit (role_tokens r).

Definition get_embargoes (r : CommunityRole) : list DeonticToken :=
  List.filter isinstance_Embargo (role_tokens r).

(** ** ODP/enterprise_object.py *)

Record Party := mkParty {
  party_name : string;
  fulfills_roles : list CommunityRole;
  active_tokens : list DeonticToken
}.

#[global] Instance Party_eq_dec : EqDecision Party.
Proof. solve_decision. Defined.

(** [Party.get_action]: the roles are searched in order. *)
Fixpoint get_action_in (roles : list CommunityRole) (name : string) : option Action :=
  match roles with
  | [] => None
  | r :: rest =>
      match CommunityRole_get_action r name with
      | Some a => Some a
      | None => get_action_in rest name
      end
  end.

Definition Party_get_action (p : Party) (name : string) : option Action :=
  get_action_in (fulfills_roles p) name.

(** [Party.has_role] *)
Definition has_role (p : Party) (name : string) : bool :=
  existsb (fun r => bool_decide (role_name r = name)) (fulfills_roles p).

(** ** ODP/artifact.py *)

Record Property := mkProperty {
  prop_name : string;
  prop_type_hint : string
}.

#[global] Instance Property_eq_dec : EqDecision Property.
Proof. solve_decision. Defined.

(** [Artifact]; [parties] is kept as the tuple of role names. *)
Record Artifact := mkArtifact {
  artifact_name : string;
  artifact_parties : list string;
  artifact_properties : list Property
}.

#[global] Instance Artifact_eq_dec : EqDecision Artifact.
Proof. solve_decision. Defined.

(** ** ODP/policy.py *)

Inductive DurationUnit :=
  | MINUTE | MINUTES | HOUR | HOURS | DAY | DAYS
  | WEEK | WEEKS | MONTH | MONTHS | YEAR | YEARS.

(** [PolicyValue = Union[Duration, NumberInterval, float, str, bool]];
    numbers are kept as rationals, they are only stored and copied. *)
Inductive PolicyValue :=
  | PVDuration (value : Qc) (unit : DurationUnit)
  | PVNumberInterval (from_ to_ : Qc)
  | PVNumber (x : Qc)
  | PVStr (s : string)
  | PVBool (b : bool).

Inductive EnvelopeRuleType := ONE | SET | LIST.

Record EnvelopeRule := mkEnvelopeRule {
  envelope_rule_type : EnvelopeRuleType;
  envelope_rule_values : list PolicyValue
}.

Record PolicyEnvelope := mkPolicyEnvelope {
  envelope_rules : list EnvelopeRule
}.

Record PolicySettingBehaviour := mkPolicySettingBehaviour {
  policy_setting_role : string
}.

Record Policy := mkPolicy {
  policy_name : string;
  policy_type : string;
  setting_behaviour : PolicySettingBehaviour;
  initial_value : PolicyValue;
  envelope : PolicyEnvelope
}.

(** [Rule = Union[Policy, PolicyEnvelope, PolicyValue]] *)
Inductive Rule :=
  | RulePolicy (p : Policy)
  | RuleEnvelope (e : PolicyEnvelope)
  | RuleValue (v : PolicyValue).

(** ** Exceptions and outcomes *)

(** The exception classes that occur.  The last three derive from
    [BaseException] and not from [Exception]. *)
Inductive Exn :=
  | ValueError
  | KeyError
  | IndexError
  | AttributeError
  | TypeError
  | NameError
  | ZeroDivisionError
  | SystemExit
  | KeyboardInterrupt
  | GeneratorExit.

#[global] Instance Exn_eq_dec : EqDecision Exn.
Proof. solve_decision. Defined.

(** [isinstance(e, Exception)] *)
Definition is_Exception (e : Exn) : bool :=
  match e with
  | SystemExit | KeyboardInterrupt | GeneratorExit => false
  | _ => true
  end.

(** The outcome of a method on a mutable object: it returns, or an
    exception leaves it; either way the object is in the state [s]. *)
Inductive Outcome (S : Type) : Type :=
  | Returned (s : S)
  | Raised (e : Exn) (s : S).
Arguments Returned {S} s.
Arguments Raised {S} e s.

Definition outcome_state {S : Type} (o : Outcome S) : S :=
  match o with
  | Returned s => s
  | Raised _ s => s
  end.

Definition returns {S : Type} (o : Outcome S) : bool :=
  match o with
  | Returned _ => true
  | Raised _ _ => false
  end.

(** ** ODP/community.py, ODP/model.py *)

(** [Community]: the lists, and the three name indexes created empty by
    [__post_init__].  [contract], [objective] and [imports] are read by
    neither [build_indexes] nor the engine. *)
Record Community := mkCommunity {
  community_name : string;
  events : list Event;
  artifacts_of : list Artifact;
  roles : list CommunityRole;
  rules : list Rule;
  _role_index : gmap string CommunityRole;
  _artifact_index : gmap string Artifact;
  _event_index : gmap string Event
}.

(** One of the three loops of [build_indexes]:
    [for x in items: if x.name in index: raise ValueError(..); index[x.name] = x]. *)
Fixpoint build_index {A : Type} (name : A -> string) (items : list A)
    (index : gmap string A) : Outcome (gmap string A) :=
  match items with
  | [] => Returned index
  | x :: rest =>
      match index !! name x with
      | Some _ => Raised ValueError index
      | None => build_index name rest (<[name x := x]> index)
      end
  end.

(** [Community.build_indexes] *)
Definition build_indexes (c : Community) : Outcome Community :=
  let with_indexes ri ai ei :=
    mkCommunity (community_name c) (events c) (artifacts_of c) (roles c) (rules c)
                ri ai ei in
  match build_index role_name (roles c) ∅ with
  | Raised e ri => Raised e (with_indexes ri ∅ ∅)
  | Returned ri =>
      match build_index artifact_name (artifacts_of c) ∅ with
      | Raised e ai => Raised e (with_indexes ri ai ∅)
      | Returned ai =>
          match build_index event_name (events c) ∅ with
          | Raised e ei => Raised e (with_indexes ri ai ei)
          | Returned ei => Returned (with_indexes ri ai ei)
          end
      end
  end.

Definition get_role (c : Community) (name : string) : option CommunityRole :=
  _role_index c !! name.

Definition get_artifact (c : Community) (name : string) : option Artifact :=
  _artifact_index c !! name.

Definition get_event (c : Community) (name : string) : option Event :=
  _event_index c !! name.

(** [Model]; [simple_types] is not read by the engine. *)
Record Model := mkModel {
  communities : list Community
}.

(** ** runtime/instances.py *)

(** The values the driver passes in [**kwargs] and that artifact
    properties hold ([Any]): [None], booleans, integers, strings, parties
    and artifact instances.  The engine never mutates a [Party] or an
    [ArtifactInstance] after it is built, so both are embedded as values. *)
Inductive Value : Type :=
  | VNone
  | VBool (b : bool)
  | VInt (z : Z)
  | VStr (s : string)
  | VParty (p : Party)
  | VArtifact (a : ArtifactInstance)
with ArtifactInstance : Type :=
  | mkArtifactInstance (instance_id : string) (template : Artifact)
                       (properties : list (string * Value)).

(** A dict that keeps insertion order: unique keys, in insertion order. *)
Abbreviation Dict := (list (string * Value)).

Definition instance_id (a : ArtifactInstance) : string :=
  match a with mkArtifactInstance i _ _ => i end.
Definition template (a : ArtifactInstance) : Artifact :=
  match a with mkArtifactInstance _ t _ => t end.
Definition properties (a : ArtifactInstance) : Dict :=
  match a with mkArtifactInstance _ _ p => p end.

(** [d.get(k)] ([None] of Python is [VNone], see [dict_get_default]),
    [d[k] = v] and [d.values()]. *)
Fixpoint dict_get (d : Dict) (k : string) : option Value :=
  match d with
  | [] => None
  | (k', v) :: rest => if bool_decide (k' = k) then Some v else dict_get rest k
  end.

Definition dict_get_default (d : Dict) (k : string) (dflt : Value) : Value :=
  default dflt (dict_get d k).

Fixpoint dict_set (d : Dict) (k : string) (v : Value) : Dict :=
  match d with
  | [] => [(k, v)]
  | (k', v') :: rest =>
      if bool_decide (k' = k) then (k, v) :: rest else (k', v') :: dict_set rest k v
  end.

Definition dict_values (d : Dict) : list Value := map snd d.

(** Python's [==] on values: [True == 1] and [False == 0]; dataclasses
    compare field by field; dicts compare as mappings, whatever the
    insertion order. *)
Fixpoint value_eqb (a b : Value) : bool :=
  match a, b with
  | VNone, VNone => true
  | VBool x, VBool y => bool_decide (x = y)
  | VBool x, VInt z | VInt z, VBool x => bool_decide (Z.b2z x = z)
  | VInt x, VInt y => bool_decide (x = y)
  | VStr x, VStr y => bool_decide (x = y)
  | VParty p, VParty q => bool_decide (p = q)
  | VArtifact (mkArtifactInstance i t props), VArtifact (mkArtifactInstance i' t' props') =>
      bool_decide (i = i') && bool_decide (t = t') &&
      bool_decide (length props = length props') &&
      forallb (fun kv : string * Value =>
                 match kv with
                 | (k, v) =>
                     match dict_get props' k with
                     | Some v' => value_eqb v v'
                     | None => false
                     end
                 end) props
  | _, _ => false
  end.

(** Truth value of a value ([if x:], [not x], [x and ..]). *)
Definition truthy (v : Value) : bool :=
  match v with
  | VNone => false
  | VBool b => b
  | VInt z => negb (bool_decide (z = 0))
  | VStr s => negb (bool_decide (s = ""))
  | VParty _ => true
  | VArtifact _ => true
  end.

(** [ArtifactInstance.__getattr__]: a property read as an attribute;
    [None] stands for [AttributeError]. *)
Definition ArtifactInstance_getattr (a : ArtifactInstance) (name : string) : option Value :=
  dict_get (properties a) name.

Inductive DeonticTokenState := INACTIVE | ACTIVE | DISCHARGED.

#[global] Instance DeonticTokenState_eq_dec : EqDecision DeonticTokenState.
Proof. solve_decision. Defined.

(** [DeonticTokenState.name] *)
Definition state_name (s : DeonticTokenState) : string :=
  match s with
  | INACTIVE => "INACTIVE"
  | ACTIVE => "ACTIVE"
  | DISCHARGED => "DISCHARGED"
  end.

Record DeonticTokenInstance := mkDeonticTokenInstance {
  token_template : DeonticToken;
  owner : Party;
  token_instance_id : string;
  state : DeonticTokenState;
  context : Dict
}.

(** The dataclass default of [state]. *)
Definition default_state : DeonticTokenState := INACTIVE.

Definition set_owner (t : DeonticTokenInstance) (p : Party) : DeonticTokenInstance :=
  mkDeonticTokenInstance (token_template t) p (token_instance_id t) (state t) (context t).

Definition set_state (t : DeonticTokenInstance) (s : DeonticTokenState) : DeonticTokenInstance :=
  mkDeonticTokenInstance (token_template t) (owner t) (token_instance_id t) s (context t).

(** ** [repr] of values

    [repr] of a [str] is given for printable ASCII text together with
    newline, carriage return and tab: the quote is the apostrophe unless
    the text holds an apostrophe and no double quote. *)
Definition dquote : ascii := ascii_of_nat 34.
Definition squote : ascii := ascii_of_nat 39.
Definition backslash : ascii := ascii_of_nat 92.

Fixpoint has_char (c : ascii) (s : string) : bool :=
  match s with
  | EmptyString => false
  | String c' rest => bool_decide (c' = c) || has_char c rest
  end.

Fixpoint escape_str (q : ascii) (s : string) : string :=
  match s with
  | EmptyString => EmptyString
  | String c rest =>
      let tail := escape_str q rest in
      if bool_decide (c = backslash) then String backslash (String backslash tail)
      else if bool_decide (c = q) then String backslash (String q tail)
      else if bool_decide (c = ascii_of_nat 10) then String backslash (String "n" tail)
      else if bool_decide (c = ascii_of_nat 13) then String backslash (String "r" tail)
      else if bool_decide (c = ascii_of_nat 9) then String backslash (String "t" tail)
      else String c tail
  end.

Definition repr_str (s : string) : string :=
  let q := if has_char squote s && negb (has_char dquote s) then dquote else squote in
  String q (escape_str q s ++ String q EmptyString).

Fixpoint join (sep : string) (l : list string) : string :=
  match l with
  | [] => ""
  | [x] => x
  | x :: rest => x ++ sep ++ join sep rest
  end.

Definition repr_str_list (l : list string) : string :=
  "[" ++ join ", " (map repr_str l) ++ "]".

(** [Party.__repr__] *)
Definition Party_repr (p : Party) : string :=
  "Party(name=" ++ repr_str (party_name p) ++
  ", fulfills_roles=" ++ repr_str_list (map role_name (fulfills_roles p)) ++
  ", active_tokens=" ++ pretty (length (active_tokens p)) ++ ")".

(** [ArtifactInstance.__repr__] *)
Definition ArtifactInstance_repr (a : ArtifactInstance) : string :=
  "ArtifactInstance(id='" ++ instance_id a ++ "', type='" ++
  artifact_name (template a) ++ "')".

Definition repr (v : Value) : string :=
  match v with
  | VNone => "None"
  | VBool true => "True"
  | VBool false => "False"
  | VInt z => pretty z
  | VStr s => repr_str s
  | VParty p => Party_repr p
  | VArtifact a => ArtifactInstance_repr a
  end.

(** ** runtime/tracer.py *)

(** The [details] dict of a [LogEntry], one shape per logging method. *)
Inductive Details :=
  | ActionDetails (party : Party) (action_name : string) (args : list (string * string))
  | ProhibitedDetails (party : Party) (action_name : string) (reason : string)
  | TokenCreateDetails (token_id template_name : string) (owner : Party)
  | TokenStateChangeDetails (token_id template_name : string) (owner : Party)
                            (new_state trigger_event : string).

Record LogEntry := mkLogEntry {
  timestamp : Z;
  event_type : string;
  details : Details
}.

(** ** The environment of a run

    [py_eval raw context] is [bool(eval(raw, context))] of the Python
    interpreter: [inr b] when it returns [b], [inl e] when it raises [e].
    A guard is an expression without side effects (section 4.4 of the
    specification): its evaluation changes none of the objects of the
    context.
    [uuid4_hex6 n] is [uuid.uuid4().hex[:6]] of the n-th draw and [now n]
    the n-th reading of [datetime.datetime.now()]. *)
Inductive CtxValue :=
  | CtxPolicy (v : PolicyValue)
  | CtxFunction (f : Value -> option Value)
  | CtxValue_ (v : Value).

Record World := mkWorld {
  py_eval : string -> gmap string CtxValue -> Exn + bool;
  uuid4_hex6 : nat -> string;
  now : nat -> Z
}.

(** [Guard.evaluate]: [except Exception] catches the instances of
    [Exception], and the guard is then false; any other exception leaves
    the method ([inl]). *)
Definition Guard_evaluate (w : World) (g : Guard) (ctx : gmap string CtxValue)
    : Exn + bool :=
  match py_eval w (raw g) ctx with
  | inr b => inr b
  | inl e => if is_Exception e then inr false else inl e
  end.

(** ** runtime/engine.py *)

(** The engine: its fields, the [history] of its tracer, and the number
    of uuids drawn so far (the position in the environment's sequence). *)
Record Engine := mkEngine {
  model : Model;
  parties : gmap string Party;
  artifacts : gmap string ArtifactInstance;
  tokens : list DeonticTokenInstance;
  history : list LogEntry;
  policy_values : gmap string PolicyValue;
  uuid_drawn : nat
}.

Definition set_parties (st : Engine) (ps : gmap string Party) : Engine :=
  mkEngine (model st) ps (artifacts st) (tokens st) (history st)
           (policy_values st) (uuid_drawn st).

Definition set_artifacts (st : Engine) (arts : gmap string ArtifactInstance) : Engine :=
  mkEngine (model st) (parties st) arts (tokens st) (history st)
           (policy_values st) (uuid_drawn st).

Definition set_tokens (st : Engine) (ts : list DeonticTokenInstance) : Engine :=
  mkEngine (model st) (parties st) (artifacts st) ts (history st)
           (policy_values st) (uuid_drawn st).

Definition set_history (st : Engine) (h : list LogEntry) : Engine :=
  mkEngine (model st) (parties st) (artifacts st) (tokens st) h
           (policy_values st) (uuid_drawn st).

Definition set_uuid_drawn (st : Engine) (n : nat) : Engine :=
  mkEngine (model st) (parties st) (artifacts st) (tokens st) (history st)
           (policy_values st) n.

(** The policies among the rules of all communities, in order. *)
Definition model_policies (m : Model) : list Policy :=
  flat_map (fun comm =>
    flat_map (fun r => match r with RulePolicy p => [p] | _ => [] end) (rules comm))
    (communities m).

(** The dict comprehension of [Engine.__init__]: a later policy of the
    same name overwrites the earlier entry. *)
Definition build_policy_values (ps : list Policy) : gmap string PolicyValue :=
  foldl (fun acc p => <[policy_name p := initial_value p]> acc) ∅ ps.

(** [Engine.__init__] *)
Definition Engine_init (m : Model) : Engine :=
  mkEngine m ∅ ∅ [] [] (build_policy_values (model_policies m)) 0.

Section Runtime.

Context (w : World).

(** [SimulationTracer._log]: the timestamp is the next clock reading. *)
Definition tracer_log (st : Engine) (ty : string) (d : Details) : Engine :=
  set_history st (history st ++ [mkLogEntry (now w (length (history st))) ty d]).

Definition log_action (st : Engine) (party : Party) (action : Action) (args : Dict) : Engine :=
  tracer_log st "ACTION"
    (ActionDetails party (action_name action) (map (fun kv => (kv.1, repr kv.2)) args)).

Definition log_action_prohibited (st : Engine) (party : Party) (name reason : string) : Engine :=
  tracer_log st "ACTION_PROHIBITED" (ProhibitedDetails party name reason).

Definition log_token_creation (st : Engine) (token : DeonticTokenInstance) : Engine :=
  tracer_log st "TOKEN_CREATE"
    (TokenCreateDetails (token_instance_id token) (token_name (token_template token))
                        (owner token)).

Definition log_token_state_change (st : Engine) (token : DeonticTokenInstance)
    (trigger : string) : Engine :=
  tracer_log st "TOKEN_STATE_CHANGE"
    (TokenStateChangeDetails (token_instance_id token) (token_name (token_template token))
                             (owner token) (state_name (state token)) trigger).

(** [uuid.uuid4().hex[:6]]: the next draw. *)
Definition draw_uuid (st : Engine) : string * Engine :=
  (uuid4_hex6 w (uuid_drawn st), set_uuid_drawn st (S (uuid_drawn st))).

(** [Engine.create_party] *)
Definition create_party (st : Engine) (name : string) (role_names : list string)
    : Outcome Engine :=
  match parties st !! name with
  | Some _ => Returned st
  | None =>
      match role_names with
      | [] =>
          Returned (set_parties st (<[name := mkParty name [] []]> (parties st)))
      | _ :: _ =>
          match communities (model st) !! 0%nat with
          | None => Raised IndexError st
          | Some comm =>
              let found := map (get_role comm) role_names in
              if forallb (fun r : option CommunityRole => bool_decide (is_Some r)) found
              then Returned (set_parties st
                     (<[name := mkParty name (omap id found) []]> (parties st)))
              else Returned st
          end
      end
  end.

(** [Engine.create_artifact_instance] *)
Definition create_artifact_instance (st : Engine) (artifact_type id : string)
    (props : Dict) : Outcome Engine :=
  match artifacts st !! id with
  | Some _ => Returned st
  | None =>
      match communities (model st) !! 0%nat with
      | None => Raised IndexError st
      | Some comm =>
          match get_artifact comm artifact_type with
          | None => Returned st
          | Some tmpl =>
              Returned (set_artifacts st
                (<[id := mkArtifactInstance id tmpl props]> (artifacts st)))
          end
      end
  end.

(** The attribute [name] of a value, as [p.name] reads it. *)
Definition getattr_name (v : Value) : option Value :=
  match v with
  | VParty p => Some (VStr (party_name p))
  | VArtifact a => ArtifactInstance_getattr a "name"
  | _ => None
  end.

(** [getattr(art, name, dflt)] on an artifact instance. *)
Definition getattr_default (a : ArtifactInstance) (name : string) (dflt : Value) : Value :=
  default dflt (ArtifactInstance_getattr a name).

(** The domain functions of [_get_domain_functions]: closures over
    [self.artifacts]; they raise when their argument has no [name]. *)
Definition loan_count (arts : gmap string ArtifactInstance) (p : Value) : option Value :=
  let count :=
    length (filter (fun kv : string * ArtifactInstance =>
                      (bool_decide (artifact_name (template kv.2) = "Loan") &&
                       value_eqb (getattr_default kv.2 "borrower" VNone) p) = true)
                   (map_to_list arts)) in
  match getattr_name p with
  | Some _ => Some (VInt (Z.of_nat count))
  | None => None
  end.

Definition has_unpaid_fines (arts : gmap string ArtifactInstance) (p : Value)
    : option Value :=
  let found :=
    existsb (fun kv : string * ArtifactInstance =>
               bool_decide (artifact_name (template kv.2) = "Fine") &&
               value_eqb (getattr_default kv.2 "borrower" VNone) p &&
               negb (truthy (getattr_default kv.2 "isPaid" (VBool true))))
            (map_to_list arts) in
  match getattr_name p with
  | Some _ => Some (VBool found)
  | None => None
  end.

Definition _get_domain_functions (arts : gmap string ArtifactInstance)
    : gmap string CtxValue :=
  <["loanCount" := CtxFunction (loan_count arts)]>
    (<["hasUnpaidFines" := CtxFunction (has_unpaid_fines arts)]> ∅).

(** The guard context
    [{**policy_values, **domain_functions, "self": party, **kwargs}]:
    a later source overwrites an earlier one. *)
Definition guard_context (st : Engine) (party : Party) (kwargs : Dict)
    : gmap string CtxValue :=
  foldl (fun acc kv => <[kv.1 := CtxValue_ kv.2]> acc)
        (<["self" := CtxValue_ (VParty party)]>
           (_get_domain_functions (artifacts st) ∪ (CtxPolicy <$> policy_values st)))
        kwargs.

(** [Engine._resolve_token_owner] *)
Definition party_with_role (role : string) (v : Value) : option Party :=
  match v with
  | VParty p => if has_role p role then Some p else None
  | _ => None
  end.

Fixpoint first_some {A B : Type} (f : A -> option B) (l : list A) : option B :=
  match l with
  | [] => None
  | x :: rest =>
      match f x with
      | Some y => Some y
      | None => first_some f rest
      end
  end.

Definition _resolve_token_owner (tmpl : DeonticToken) (performer : Party)
    (action_args : Dict) : Party :=
  match affected_role tmpl with
  | None => performer
  | Some role =>
      default performer
        (first_some (fun arg =>
           match arg with
           | VParty _ => party_with_role role arg
           | VArtifact a => first_some (party_with_role role) (dict_values (properties a))
           | _ => None
           end) (dict_values action_args))
  end.

(** The body of the loop of [_fire_event] for one token: the token after
    the iteration and whether [log_token_state_change] was called. *)
Definition fire_token (event : Event) (token : DeonticTokenInstance)
    : DeonticTokenInstance * bool :=
  if bool_decide (state token = INACTIVE) &&
     bool_decide (activation_trigger (token_template token) = Some event)
  then (set_state token ACTIVE, true)
  else if bool_decide (state token = ACTIVE) then
    match finish_expression (token_template token) with
    | Some fe =>
        if evaluate fe [event] then (set_state token DISCHARGED, true)
        else (token, false)
    | None => (token, false)
    end
  else (token, false).

(** The loop [for token in self.tokens] of [_fire_event]: [done] are the
    tokens already visited, [todo] those still to visit. *)
Fixpoint fire_loop (event : Event) (st : Engine)
    (done todo : list DeonticTokenInstance) : Engine :=
  match todo with
  | [] => set_tokens st done
  | token :: rest =>
      let '(token', changed) := fire_token event token in
      let st' := if changed then log_token_state_change st token' (event_name event)
                 else st in
      fire_loop event st' (done ++ [token']) rest
  end.

(** [Engine._fire_event] *)
Definition _fire_event (st : Engine) (event : Event) : Engine :=
  fire_loop event st [] (tokens st).

(** The embargo screen of [perform_action]: the first ACTIVE embargo
    token owned by the party. *)
Definition active_embargo_of (party : Party) (token : DeonticTokenInstance) : bool :=
  bool_decide (owner token = party) &&
  bool_decide (state token = ACTIVE) &&
  isinstance_Embargo (token_template token).

Definition blocking_embargo (st : Engine) (party : Party) : option DeonticTokenInstance :=
  List.find (active_embargo_of party) (tokens st).

(** [self.artifacts[id]]; a missing key raises [KeyError]. *)
Definition artifacts_getitem (st : Engine) (id : string) : option ArtifactInstance :=
  artifacts st !! id.

(** The built-in side effects of [perform_action] (the [if]/[elif] chain
    on [action.name]): the engine after them and the updated [kwargs],
    or the exception. *)
Definition builtin_effects (st : Engine) (party : Party) (action : Action)
    (kwargs : Dict) : Outcome (Engine * Dict) :=
  if bool_decide (action_name action = "borrowItem") then
    let '(hex, st1) := draw_uuid st in
    let loan_id := "loan-" ++ hex in
    let props := [("item", dict_get_default kwargs "item" VNone);
                  ("borrower", VParty party);
                  ("isOverdue", VBool false)] in
    match create_artifact_instance st1 "Loan" loan_id props with
    | Raised e st2 => Raised e (st2, kwargs)
    | Returned st2 =>
        match artifacts_getitem st2 loan_id with
        | None => Raised KeyError (st2, kwargs)
        | Some loan => Returned (st2, dict_set kwargs "loan" (VArtifact loan))
        end
    end
  else if bool_decide (action_name action = "returnItem") then
    let loan := dict_get_default kwargs "loan" VNone in
    if truthy loan then
      match loan with
      | VArtifact a =>
          match artifacts st !! instance_id a with
          | Some _ => Returned (set_artifacts st (delete (instance_id a) (artifacts st)), kwargs)
          | None => Returned (st, kwargs)
          end
      | _ => Raised AttributeError (st, kwargs)
      end
    else Returned (st, kwargs)
  else if bool_decide (action_name action = "fineBorrower") then
    let loan := dict_get_default kwargs "loan" VNone in
    let '(hex, st1) := draw_uuid st in
    let fine_id := "fine-" ++ hex in
    let borrower :=
      match loan with
      | VArtifact a => ArtifactInstance_getattr a "borrower"
      | _ => None
      end in
    match borrower with
    | None => Raised AttributeError (st1, kwargs)
    | Some b =>
        let props := [("borrower", b); ("loan", loan);
                      ("amount", VInt 500); ("isPaid", VBool false)] in
        match create_artifact_instance st1 "Fine" fine_id props with
        | Raised e st2 => Raised e (st2, kwargs)
        | Returned st2 =>
            match artifacts_getitem st2 fine_id with
            | None => Raised KeyError (st2, kwargs)
            | Some fine => Returned (st2, dict_set kwargs "fine" (VArtifact fine))
            end
        end
    end
  else Returned (st, kwargs).

(** The search of the delegation block: the index of the first token
    owned by the delegator, of the delegated name, ACTIVE, and whose
    [context.get("loan")] equals the [loan] of the call. *)
Definition delegable (party : Party) (name : string) (loan_context : Value)
    (token : DeonticTokenInstance) : bool :=
  bool_decide (owner token = party) &&
  bool_decide (token_name (token_template token) = name) &&
  bool_decide (state token = ACTIVE) &&
  value_eqb (dict_get_default (context token) "loan" VNone) loan_context.

Fixpoint find_indexed {A : Type} (f : A -> bool) (l : list A) : option (nat * A) :=
  match l with
  | [] => None
  | x :: rest =>
      if f x then Some (0%nat, x)
      else match find_indexed f rest with
           | Some (i, y) => Some (S i, y)
           | None => None
           end
  end.

(** What the delegation block does: it raises, returns from
    [perform_action], or falls through to the rest of the method. *)
Inductive BlockResult :=
  | BlockRaised (e : Exn)
  | BlockReturn
  | BlockContinue (st : Engine).

(** The test [not new_owner or not new_owner.has_role(action.agent.name)]
    together with the error message of its branch, which reads
    [new_owner.name]: [inl e] is an exception, [inr None] the branch taken
    to its [return], [inr (Some p)] the branch skipped with recipient [p]. *)
Definition delegation_recipient (new_owner : Value) (agent : option string)
    : Exn + option Party :=
  if negb (truthy new_owner) then inl AttributeError
  else
    match new_owner with
    | VParty p =>
        match agent with
        | None => inl AttributeError
        | Some role => if has_role p role then inr (Some p) else inr None
        end
    | VArtifact a =>
        match ArtifactInstance_getattr a "has_role", agent with
        | Some _, Some _ => inl TypeError
        | _, _ => inl AttributeError
        end
    | _ => inl AttributeError
    end.

(** The block [if isinstance(action, behavior.Delegation):] *)
Definition delegation_block (st : Engine) (party : Party) (action : Action)
    (kwargs : Dict) : BlockResult :=
  match action_class action with
  | Delegation _ _ token_to_delegate_name agent =>
      let new_owner := dict_get_default kwargs "agent" VNone in
      let loan_context := dict_get_default kwargs "loan" VNone in
      match delegation_recipient new_owner agent with
      | inl e => BlockRaised e
      | inr None => BlockReturn
      | inr (Some recipient) =>
          match find_indexed (delegable party token_to_delegate_name loan_context)
                             (tokens st) with
          | Some (i, token_found) =>
              let moved := set_owner token_found recipient in
              BlockContinue
                (log_token_state_change
                   (set_tokens st (<[i := moved]> (tokens st)))
                   moved ("delegated via " ++ action_name action))
          | None => BlockContinue st
          end
      end
  | _ => BlockContinue st
  end.

(** The loop [for token_template in action.tokens] of the speech-act
    block: every instance is built with the dataclass defaults, a fresh
    [instance_id] and [state = INACTIVE]. *)
Fixpoint mint_tokens (st : Engine) (party : Party) (templates : list DeonticToken)
    (kwargs : Dict) : Engine :=
  match templates with
  | [] => st
  | tmpl :: rest =>
      let token_owner := _resolve_token_owner tmpl party kwargs in
      let '(hex, st1) := draw_uuid st in
      let token := mkDeonticTokenInstance tmpl token_owner ("token-" ++ hex)
                                          default_state kwargs in
      let st2 := set_tokens st1 (tokens st1 ++ [token]) in
      mint_tokens (log_token_creation st2 token) party rest kwargs
  end.

Definition speech_act_block (st : Engine) (party : Party) (action : Action)
    (kwargs : Dict) : Engine :=
  if isinstance_SpeechAct action
  then mint_tokens st party (action_tokens action) kwargs
  else st.

(** The last statement: [if action.trigger_event: self._fire_event(..)]. *)
Definition emit_trigger_event (st : Engine) (action : Action) : Engine :=
  match trigger_event action with
  | Some ev => _fire_event st ev
  | None => st
  end.

(** [perform_action] from [self.tracer.log_action] up to its last
    statement: [inl] when the method is left before it (an exception, or
    the [return] of the delegation block), [inr] with the engine as it is
    when the last statement is reached. *)
Definition perform_until_event (st : Engine) (party : Party) (act : Action)
    (kwargs : Dict) : Outcome Engine + Engine :=
  let st1 := log_action st party act kwargs in
  match builtin_effects st1 party act kwargs with
  | Raised e (st2, _) => inl (Raised e st2)
  | Returned (st2, kwargs') =>
      match delegation_block st2 party act kwargs' with
      | BlockRaised e => inl (Raised e st2)
      | BlockReturn => inl (Returned st2)
      | BlockContinue st3 => inr (speech_act_block st3 party act kwargs')
      end
  end.

(** [perform_action] from [self.tracer.log_action] on: the action is
    permitted. *)
Definition perform_permitted (st : Engine) (party : Party) (act : Action)
    (kwargs : Dict) : Outcome Engine :=
  match perform_until_event st party act kwargs with
  | inl o => o
  | inr st4 => Returned (emit_trigger_event st4 act)
  end.

(** [Engine.perform_action] *)
Definition perform_action (st : Engine) (name action : string) (kwargs : Dict)
    : Outcome Engine :=
  match parties st !! name with
  | None => Returned st
  | Some party =>
      match Party_get_action party action with
      | None => Returned st
      | Some act =>
          match blocking_embargo st party with
          | Some token =>
              Returned (log_action_prohibited st party action
                ("Active embargo '" ++ token_name (token_template token) ++ "'"))
          | None =>
              match guard act with
              | Some g =>
                  match Guard_evaluate w g (guard_context st party kwargs) with
                  | inl e => Raised e st
                  | inr b =>
                      if negb b
                      then Returned (log_action_prohibited st party (action_name act)
                                       ("Guard failed: " ++ raw g))
                      else perform_permitted st party act kwargs
                  end
              | None => perform_permitted st party act kwargs
              end
          end
      end
  end.

(** The engine as it is when a call reaches the last statement of
    [perform_action] (all tokens of the call are minted, its event is not
    yet fired), if the call gets there. *)
Definition before_trigger_event (st : Engine) (name action : string) (kwargs : Dict)
    : option Engine :=
  match parties st !! name with
  | None => None
  | Some party =>
      match Party_get_action party action with
      | None => None
      | Some act =>
          match blocking_embargo st party with
          | Some _ => None
          | None =>
              let reached :=
                match perform_until_event st party act kwargs with
                | inl _ => None
                | inr st4 => Some st4
                end in
              match guard act with
              | Some g =>
                  match Guard_evaluate w g (guard_context st party kwargs) with
                  | inl _ => None
                  | inr b => if negb b then None else reached
                  end
              | None => reached
              end
          end
      end
  end.

End Runtime.

(** ** Driver calls and runs *)

(** The three commands of the driver API. *)
Inductive Call :=
  | CreateParty (name : string) (role_names : list string)
  | CreateArtifactInstance (artifact_type id : string) (props : Dict)
  | PerformAction (name action : string) (kwargs : Dict).

Definition exec_call (w : World) (st : Engine) (c : Call) : Outcome Engine :=
  match c with
  | CreateParty name role_names => create_party st name role_names
  | CreateArtifactInstance ty id props => create_artifact_instance st ty id props
  | PerformAction name action kwargs => perform_action w st name action kwargs
  end.

(** A run of a driver script; a driver that stops at the first exception
    runs a prefix of the script, one that catches it goes on from the
    state the engine was left in. *)
Definition run (w : World) (st : Engine) (calls : list Call) : Engine :=
  foldl (fun s c => outcome_state (exec_call w s c)) st calls.

(** The party performing a call, if it is a [perform_action] of a
    registered party. *)
Definition performer (st : Engine) (c : Call) : option Party :=
  match c with
  | PerformAction name _ _ => parties st !! name
  | _ => None
  end.

(** ** Vocabulary of the properties *)

(** The life cycle of a token: INACTIVE, then ACTIVE, then DISCHARGED. *)
Inductive lifecycle_step : DeonticTokenState -> DeonticTokenState -> Prop :=
  | step_activate : lifecycle_step INACTIVE ACTIVE
  | step_discharge : lifecycle_step ACTIVE DISCHARGED.

(** Zero or more steps of the life cycle. *)
Inductive lifecycle_path : DeonticTokenState -> DeonticTokenState -> Prop :=
  | path_stay s : lifecycle_path s s
  | path_step s1 s2 s3 :
      lifecycle_step s1 s2 -> lifecycle_path s2 s3 -> lifecycle_path s1 s3.

(** The engine states at which the state of a token can be observed
    during a run: before and after every call and, inside a
    [perform_action] that reaches its last statement, between the minting
    of the tokens and the firing of the event. *)
Definition intermediate (w : World) (st : Engine) (c : Call) : list Engine :=
  match c with
  | PerformAction name action kwargs =>
      option_list (before_trigger_event w st name action kwargs)
  | _ => []
  end.

Fixpoint snapshots (w : World) (st : Engine) (calls : list Call) : list Engine :=
  st :: match calls with
        | [] => []
        | c :: rest =>
            intermediate w st c ++ snapshots w (outcome_state (exec_call w st c)) rest
        end.

(** The states in which the token at position [i] of [Engine.tokens] is
    observed along a run, from its creation on. *)
Definition token_states (w : World) (st : Engine) (calls : list Call) (i : nat)
    : list DeonticTokenState :=
  omap (fun s => state <$> tokens s !! i) (snapshots w st calls).

(** A sequence of states without its immediate repetitions. *)
Fixpoint collapse (l : list DeonticTokenState) : list DeonticTokenState :=
  match l with
  | [] => []
  | s :: rest =>
      match collapse rest with
      | [] => [s]
      | s' :: more => if bool_decide (s = s') then s' :: more else s :: s' :: more
      end
  end.

Definition lifecycle : list DeonticTokenState := [INACTIVE; ACTIVE; DISCHARGED].

(** One step of the life cycle, or none. *)
Definition state_advances (s s' : DeonticTokenState) : Prop :=
  s' = s \/ lifecycle_step s s'.

(** A sequence of observed states in which every state is followed by
    itself or by the next state of the life cycle. *)
Inductive advancing : list DeonticTokenState -> Prop :=
  | advancing_nil : advancing []
  | advancing_one s : advancing [s]
  | advancing_cons s s' l :
      state_advances s s' -> advancing (s' :: l) -> advancing (s :: s' :: l).

(** The part of the life cycle that starts at a given state. *)
Definition lifecycle_from (s : DeonticTokenState) : list DeonticTokenState :=
  match s with
  | INACTIVE => [INACTIVE; ACTIVE; DISCHARGED]
  | ACTIVE => [ACTIVE; DISCHARGED]
  | DISCHARGED => [DISCHARGED]
  end.

(** The part of the life cycle that precedes a given state. *)
Definition lifecycle_before (s : DeonticTokenState) : list DeonticTokenState :=
  match s with
  | INACTIVE => []
  | ACTIVE => [INACTIVE]
  | DISCHARGED => [INACTIVE; ACTIVE]
  end.

(** [details.get("party")] of a trace entry. *)
Definition entry_party (e : LogEntry) : option Party :=
  match details e with
  | ActionDetails p _ _ => Some p
  | ProhibitedDetails p _ _ => Some p
  | _ => None
  end.

(** A trace entry without its timestamp. *)
Definition untimed (e : LogEntry) : string * Details := (event_type e, details e).

(** Two environments that answer alike: the guards evaluate alike and
    the same uuids are drawn; the clocks may differ. *)
Definition same_draws (w1 w2 : World) : Prop :=
  (forall raw ctx, py_eval w1 raw ctx = py_eval w2 raw ctx) /\
  (forall n, uuid4_hex6 w1 n = uuid4_hex6 w2 n).

(** Two engines that differ at most in the timestamps of their traces. *)
Definition same_but_time (st1 st2 : Engine) : Prop :=
  set_history st1 [] = set_history st2 [] /\
  map untimed (history st1) = map untimed (history st2).

(** An entry that is not an [ACTION] entry of the party [p]. *)
Definition no_action_of (p : Party) (e : LogEntry) : Prop :=
  event_type e = "ACTION" -> entry_party e <> Some p.

(** The initial state a token is given by the pseudo-code of the
    specification (section 4.6.3): ACTIVE without an activation trigger. *)
Definition spec_initial_state (tmpl : DeonticToken) : DeonticTokenState :=
  match activation_trigger tmpl with
  | None => ACTIVE
  | Some _ => INACTIVE
  end.

(** The names of the policies, roles, artifacts and events that occur
    more than once are those for which [NoDup] fails. *)
Definition has_duplicate (names : list string) : Prop := ~ NoDup names.

(** ** A library community

    A small community in the style of the demonstration driver
    ([runtime/main.py]): borrowers, a proxy borrower and a librarian. *)
Module Library.

(** An interpreter for the guards of this community, in contexts that
    bind no name of the interpreter itself: two constant guards, a
    division by zero, a call of [sys.exit]; any other text is taken as an
    undefined name. *)
Definition eval (raw : string) (ctx : gmap string CtxValue) : Exn + bool :=
  if bool_decide (raw = "True") then inr true
  else if bool_decide (raw = "False") then inr false
  else if bool_decide (raw = "1 / 0") then inl ZeroDivisionError
  else if bool_decide (raw = "__import__('sys').exit()") then inl SystemExit
  else inl NameError.

Definition world : World :=
  mkWorld eval (fun n => "00000" ++ pretty n) (fun n => Z.of_nat n).

(** The same world with another clock. *)
Definition world_later : World :=
  mkWorld eval (fun n => "00000" ++ pretty n) (fun n => 1000 + Z.of_nat n).

(** The same world with other uuids. *)
Definition world' : World :=
  mkWorld eval (fun n => "fffff" ++ pretty n) (fun n => Z.of_nat n).

Definition itemBorrowed : Event := mkEvent "itemBorrowed" [].
Definition itemReturned : Event := mkEvent "itemReturned" [].
Definition suspended : Event := mkEvent "suspended" [].

Definition return_item : DeonticToken :=
  Burden "return_item" [] None None (Some itemBorrowed)
                 (Some (EE None [OpEvent itemReturned])) None.

Definition reading_room : DeonticToken :=
  Permit "reading_room" [] None None None None None.

Definition no_borrowing : DeonticToken :=
  Embargo "no_borrowing" [] (Some "Borrower") None (Some suspended)
                 None None.

(** A token activated by the very event that satisfies its finish
    expression. *)
Definition receipt : DeonticToken :=
  Permit "receipt" [] None None (Some itemReturned)
                 (Some (EE None [OpEvent itemReturned])) None.

Definition borrowItem : Action :=
  mkAction "borrowItem" [] (Some (mkGuard "True")) (Some itemBorrowed)
           (SpeechAct [return_item]).

Definition requestRenewal : Action :=
  mkAction "requestRenewal" [] (Some (mkGuard "False")) (Some itemReturned)
           (SpeechAct [reading_room]).

Definition requestWaiver : Action :=
  mkAction "requestWaiver" [] (Some (mkGuard "1 / 0")) (Some itemReturned)
           (SpeechAct [reading_room]).

(** An action whose guard leaves the interpreter. *)
Definition requestExit : Action :=
  mkAction "requestExit" [] (Some (mkGuard "__import__('sys').exit()"))
           (Some itemReturned) (SpeechAct [reading_room]).

Definition return_item_delegation : Action :=
  mkAction "return_item_delegation" [] None None
           (Delegation [] DELEGATED_BURDEN "return_item" (Some "ProxyBorrower")).

(** A delegation that also emits an event. *)
Definition handover : Action :=
  mkAction "handover" [] None (Some itemReturned)
           (Delegation [] DELEGATED_BURDEN "return_item" (Some "ProxyBorrower")).

(** A delegation built with token templates of its own. *)
Definition handover_with_permit : Action :=
  mkAction "handover_with_permit" [] None None
           (Delegation [reading_room] DELEGATED_BURDEN "return_item" (Some "ProxyBorrower")).

Definition proxy_return_item : Action :=
  mkAction "proxy_return_item" [] None (Some itemReturned) (BasicAction None []).

Definition grantReadingRoom : Action :=
  mkAction "grantReadingRoom" [] None None (Authorization [reading_room]).

Definition suspendBorrower : Action :=
  mkAction "suspendBorrower" [] None (Some suspended) (Declaration [no_borrowing]).

Definition Borrower : CommunityRole :=
  mkCommunityRole "Borrower" None
    [borrowItem; requestRenewal; requestWaiver; return_item_delegation;
     handover; handover_with_permit; requestExit] [].

Definition ProxyBorrower : CommunityRole :=
  mkCommunityRole "ProxyBorrower" None [proxy_return_item] [].

Definition Librarian : CommunityRole :=
  mkCommunityRole "Librarian" None [grantReadingRoom; suspendBorrower] [].

Definition LibraryItem : Artifact := mkArtifact "LibraryItem" [] [].
Definition Loan : Artifact := mkArtifact "Loan" [] [].

Definition maxLoans (n : Z) : Policy :=
  mkPolicy "maxLoans" "Integer" (mkPolicySettingBehaviour "Librarian")
           (PVNumber (Q2Qc (QArith_base.inject_Z n))) (mkPolicyEnvelope []).

Definition community_lists : Community :=
  mkCommunity "Library" [itemBorrowed; itemReturned; suspended] [LibraryItem; Loan]
              [Borrower; ProxyBorrower; Librarian] [RulePolicy (maxLoans 3)] ∅ ∅ ∅.

Definition community : Community := outcome_state (build_indexes community_lists).

(** Two policies of one name. *)
Definition community_two_policies : Community :=
  mkCommunity "Library" [] [] [] [RulePolicy (maxLoans 3); RulePolicy (maxLoans 5)] ∅ ∅ ∅.

(** Two roles of one name. *)
Definition community_two_roles : Community :=
  mkCommunity "Library" [] [] [Borrower; Borrower] [] ∅ ∅ ∅.

Definition setup : list Call :=
  [CreateParty "Alice" ["Borrower"];
   CreateParty "Bob" ["ProxyBorrower"];
   CreateParty "Libby" ["Librarian"];
   CreateArtifactInstance "LibraryItem" "book-001" [("title", VStr "ODP")]].

Definition Alice : Party := mkParty "Alice" [Borrower] [].
Definition Bob : Party := mkParty "Bob" [ProxyBorrower] [].
Definition Libby : Party := mkParty "Libby" [Librarian] [].

Definition book : Value := VArtifact (mkArtifactInstance "book-001" LibraryItem [("title", VStr "ODP")]).

(** The world state after the setup of the driver. *)
Definition engine0 : Engine := run world (Engine_init (mkModel [community])) setup.

(** Alice has borrowed the book; her [return_item] burden is ACTIVE. *)
Definition borrowed : Engine :=
  run world engine0 [PerformAction "Alice" "borrowItem" [("item", book)]].

Definition the_loan : Value :=
  VArtifact (mkArtifactInstance "loan-000000" Loan
               [("item", book); ("borrower", VParty Alice); ("isOverdue", VBool false)]).

(** Libby has then suspended Alice: Alice holds an ACTIVE embargo. *)
Definition suspended_alice : Engine :=
  run world borrowed [PerformAction "Libby" "suspendBorrower" [("who", VParty Alice)]].

(** The embargo Alice then holds, second in [Engine.tokens]. *)
Definition alice_embargo : DeonticTokenInstance :=
  mkDeonticTokenInstance no_borrowing Alice "token-000002" ACTIVE
                         [("who", VParty Alice)].

(** A token built with the constructor of [DeonticToken] itself and
    [token_type] EMBARGO, declared by the librarian of a community
    otherwise like the one above. *)
Definition no_borrowing_base : DeonticToken :=
  mkDeonticToken ClassDeonticToken EMBARGO "no_borrowing" [] (Some "Borrower")
                 None (Some suspended) None None.

Definition suspendBorrower_base : Action :=
  mkAction "suspendBorrower" [] None (Some suspended) (Declaration [no_borrowing_base]).

Definition Librarian_base : CommunityRole :=
  mkCommunityRole "Librarian" None [grantReadingRoom; suspendBorrower_base] [].

Definition community_base : Community :=
  outcome_state
    (build_indexes
       (mkCommunity "Library" [itemBorrowed; itemReturned; suspended] [LibraryItem; Loan]
                    [Borrower; ProxyBorrower; Librarian_base] [RulePolicy (maxLoans 3)]
                    ∅ ∅ ∅)).

(** In that community Alice has borrowed the book and Libby has
    suspended her: Alice holds the ACTIVE token [no_borrowing_base]. *)
Definition suspended_alice_base : Engine :=
  run world (Engine_init (mkModel [community_base]))
      (setup ++ [PerformAction "Alice" "borrowItem" [("item", book)];
                 PerformAction "Libby" "suspendBorrower" [("who", VParty Alice)]])%list.

Definition alice_embargo_base : DeonticTokenInstance :=
  mkDeonticTokenInstance no_borrowing_base Alice "token-000002" ACTIVE
                         [("who", VParty Alice)].

(** While suspended, Alice tries to borrow again and Libby grants a
    reading-room permit. *)
Definition during_suspension : list Call :=
  [PerformAction "Alice" "borrowItem" [("item", book)];
   PerformAction "Libby" "grantReadingRoom" []].

(** An engine holding one INACTIVE [receipt]. *)
Definition pending_receipt : Engine :=
  set_tokens engine0 [mkDeonticTokenInstance receipt Alice "token-0000aa" INACTIVE []].

(** The scenario carried on: Alice hands her burden to Bob, who returns
    the item; the burden is then DISCHARGED. *)
Definition returned : Engine :=
  run world borrowed
    [PerformAction "Alice" "return_item_delegation"
       [("loan", the_loan); ("agent", VParty Bob)];
     PerformAction "Bob" "proxy_return_item" [("loan", the_loan)]].

Definition bob_burden_done : DeonticTokenInstance :=
  mkDeonticTokenInstance return_item Bob "token-000001" DISCHARGED
                         [("item", book); ("loan", the_loan)].

(** A burden to be finished by two different events together. *)
Definition borrow_and_return : DeonticToken :=
  Burden "borrow_and_return" [] None None None
    (Some (EE (Some "AND") [OpEvent itemBorrowed; OpEvent itemReturned])) None.

Definition two_event_burden : DeonticTokenInstance :=
  mkDeonticTokenInstance borrow_and_return Alice "token-0000bb" ACTIVE [].

Definition holding_two_event_burden : Engine :=
  set_tokens engine0 [two_event_burden].

End Library.

(** ** Vocabulary of the proofs *)

Local Open Scope list_scope.

(** What a phase leaves alone: the model, the parties and the policy
    values are written by no phase of [perform_action]. *)
Definition same_setting (st st' : Engine) : Prop :=
  model st' = model st /\ parties st' = parties st /\
  policy_values st' = policy_values st.

(** The trace grows by entries that all satisfy [P]. *)
Definition history_grows (P : LogEntry -> Prop) (st st' : Engine) : Prop :=
  exists new, history st' = history st ++ new /\ Forall P new.

(** The kinds of trace entries. *)
Definition is_state_change (e : LogEntry) : Prop :=
  event_type e = "TOKEN_STATE_CHANGE"%string.

Definition is_token_create (e : LogEntry) : Prop :=
  event_type e = "TOKEN_CREATE"%string.

Definition is_prohibited (e : LogEntry) : Prop :=
  event_type e = "ACTION_PROHIBITED"%string.

Definition token_entry (e : LogEntry) : Prop := is_state_change e \/ is_token_create e.

(** The [ACTION] entry written by [log_action]. *)
Definition action_entry (w : World) (st : Engine) (party : Party) (act : Action)
    (kwargs : Dict) : LogEntry :=
  mkLogEntry (now w (length (history st))) "ACTION"
    (ActionDetails party (action_name act) (map (fun kv => (kv.1, repr kv.2)) kwargs)).

(** The tokens after the delegation block: unchanged, or one ACTIVE
    token of the performer handed to a recipient. *)
Definition delegated (party : Party) (act : Action) (kwargs : Dict)
    (ts ts1 : list DeonticTokenInstance) : Prop :=
  ts1 = ts \/
  exists i t r,
    ts !! i = Some t /\ owner t = party /\ state t = ACTIVE /\
    isinstance_Delegation act = true /\
    dict_get kwargs "agent" = Some (VParty r) /\
    ts1 = <[i := set_owner t r]> ts.

(** The tokens after the last statement: the event, if any, was fired
    over all of them. *)
Definition emitted (act : Action) (ts ts' : list DeonticTokenInstance) : Prop :=
  ts' = ts \/
  exists ev, trigger_event act = Some ev /\
             ts' = map (fun t => (fire_token ev t).1) ts.

(** The ways out of [perform_action]. *)
Inductive PerformCase (w : World) (st : Engine) (name action : string) (kwargs : Dict)
    : Outcome Engine -> Prop :=
  | case_unknown :
      parties st !! name = None \/
      (exists party, parties st !! name = Some party /\
                     Party_get_action party action = None) ->
      PerformCase w st name action kwargs (Returned st)
  | case_embargo party act tok :
      parties st !! name = Some party ->
      Party_get_action party action = Some act ->
      blocking_embargo st party = Some tok ->
      PerformCase w st name action kwargs
        (Returned (log_action_prohibited w st party action
           ("Active embargo '" ++ token_name (token_template tok) ++ "'")%string))
  | case_guard party act g :
      parties st !! name = Some party ->
      Party_get_action party action = Some act ->
      blocking_embargo st party = None ->
      guard act = Some g ->
      Guard_evaluate w g (guard_context st party kwargs) = inr false ->
      PerformCase w st name action kwargs
        (Returned (log_action_prohibited w st party action
           ("Guard failed: " ++ raw g)%string))
  | case_guard_raises party act g e :
      parties st !! name = Some party ->
      Party_get_action party action = Some act ->
      blocking_embargo st party = None ->
      guard act = Some g ->
      Guard_evaluate w g (guard_context st party kwargs) = inl e ->
      PerformCase w st name action kwargs (Raised e st)
  | case_permitted party act :
      parties st !! name = Some party ->
      Party_get_action party action = Some act ->
      blocking_embargo st party = None ->
      (forall g, guard act = Some g ->
                 Guard_evaluate w g (guard_context st party kwargs) = inr true) ->
      PerformCase w st name action kwargs (perform_permitted w st party act kwargs).

(** How a call by [perf] may change one token: the template stays, the
    state stays or takes one step of the life cycle, and the owner stays
    unless the token belongs to the performer, who is under no embargo. *)
Definition token_evolves (st : Engine) (perf : option Party)
    (t t' : DeonticTokenInstance) : Prop :=
  token_template t' = token_template t /\
  state_advances (state t) (state t') /\
  (owner t' = owner t \/
   (perf = Some (owner t) /\ blocking_embargo st (owner t) = None)).

(** The [ACTION] entries of a call are entries of its performer, who is
    under no embargo when the call starts. *)
Definition action_by (st : Engine) (perf : option Party) (e : LogEntry) : Prop :=
  event_type e = "ACTION"%string ->
  exists p, perf = Some p /\ entry_party e = Some p /\ blocking_embargo st p = None.

(** Between two consecutive observations every token that exists keeps
    existing, with its state unchanged or one step further, and a token
    that appears is INACTIVE. *)
Definition snap_step (s s' : Engine) : Prop :=
  (forall i t, tokens s !! i = Some t ->
     exists t', tokens s' !! i = Some t' /\ state_advances (state t) (state t')) /\
  (forall i t', tokens s' !! i = Some t' -> tokens s !! i = None ->
     state t' = INACTIVE).

(** The observations of a token from an engine state on: they start at
    the state of the token if it exists, and at INACTIVE if it is created
    later, and they advance along the life cycle. *)
Definition observed_from (s : Engine) (i : nat) (l : list DeonticTokenState) : Prop :=
  advancing l /\
  match tokens s !! i with
  | Some t => head l = Some (state t)
  | None => l = [] \/ head l = Some INACTIVE
  end.

(** The state of the token at [i] in one engine state, if it exists. *)
Definition observation (s : Engine) (i : nat) : list DeonticTokenState :=
  option_list (state <$> tokens s !! i).

(** Two outcomes of the same kind on engines that differ in timestamps. *)
Definition same_outcome (o1 o2 : Outcome Engine) : Prop :=
  match o1, o2 with
  | Returned s1, Returned s2 => same_but_time s1 s2
  | Raised e1 s1, Raised e2 s2 => e1 = e2 /\ same_but_time s1 s2
  | _, _ => False
  end.

(** Outcomes of the built-in effects: same kind, same [kwargs]. *)
Definition same_builtin (o1 o2 : Outcome (Engine * Dict)) : Prop :=
  match o1, o2 with
  | Returned (s1, k1), Returned (s2, k2) => same_but_time s1 s2 /\ k1 = k2
  | Raised e1 (s1, _), Raised e2 (s2, _) => e1 = e2 /\ same_but_time s1 s2
  | _, _ => False
  end.

(** Results of the delegation block: same kind. *)
Definition same_block (b1 b2 : BlockResult) : Prop :=
  match b1, b2 with
  | BlockRaised e1, BlockRaised e2 => e1 = e2
  | BlockReturn, BlockReturn => True
  | BlockContinue s1, BlockContinue s2 => same_but_time s1 s2
  | _, _ => False
  end.

(** ** Vocabulary of the further properties *)

(** What a call may write to one token: a new owner, only if the token
    is ACTIVE, and then at most one visit of [_fire_event]. *)
Definition rewritten (t t' : DeonticTokenInstance) : Prop :=
  exists p,
    (p = owner t \/ state t = ACTIVE) /\
    (t' = set_owner t p \/ exists ev, t' = (fire_token ev (set_owner t p)).1).

(** Every party is registered under its own name. *)
Definition parties_well_keyed (st : Engine) : Prop :=
  forall name p, parties st !! name = Some p -> party_name p = name.

(** A template whose finish expression no single event satisfies. *)
Definition never_finishes (tmpl : DeonticToken) : Prop :=
  match finish_expression tmpl with
  | None => True
  | Some fe => forall ev, evaluate fe [ev] = false
  end.

(** The three shapes of what one [perform_action] appends to the trace. *)
Definition call_entries (party : option Party) (new : list LogEntry) : Prop :=
  new = [] \/
  (exists e, new = [e] /\ is_prohibited e /\ entry_party e = party) \/
  (exists e rest, new = e :: rest /\ event_type e = "ACTION"%string /\
                  entry_party e = party /\ Forall token_entry rest).

(** * Properties *)

(** ** The tracer and the frame of each phase *)

Lemma same_setting_refl st : same_setting st st.
Proof. repeat split. Qed.

Lemma same_setting_trans st1 st2 st3 :
  same_setting st1 st2 -> same_setting st2 st3 -> same_setting st1 st3.
Proof. unfold same_setting. intros (-> & -> & ->) (-> & -> & ->). auto. Qed.

Lemma history_grows_refl P st : history_grows P st st.
Proof. exists []. rewrite app_nil_r. auto. Qed.

Lemma history_grows_same P st st' :
  history st' = history st -> history_grows P st st'.
Proof. intros H. exists []. rewrite app_nil_r. auto. Qed.

Lemma history_grows_trans P st1 st2 st3 :
  history_grows P st1 st2 -> history_grows P st2 st3 -> history_grows P st1 st3.
Proof.
  intros (n1 & H1 & F1) (n2 & H2 & F2). exists (n1 ++ n2).
  rewrite H2, H1, app_assoc. split; [reflexivity|]. apply Forall_app; auto.
Qed.

Lemma history_grows_weaken (P Q : LogEntry -> Prop) st st' :
  (forall e, P e -> Q e) -> history_grows P st st' -> history_grows Q st st'.
Proof.
  intros HPQ (new & H & F). exists new. split; [exact H|].
  eapply Forall_impl; eauto.
Qed.

Section Phases.

Context (w : World).

Lemma tracer_log_history st ty d :
  history (tracer_log w st ty d) =
  history st ++ [mkLogEntry (now w (length (history st))) ty d].
Proof. reflexivity. Qed.

Lemma tracer_log_grows (P : LogEntry -> Prop) st0 st ty d :
  history st = history st0 ->
  (forall ts, P (mkLogEntry ts ty d)) -> history_grows P st0 (tracer_log w st ty d).
Proof.
  intros Hh HP. eexists. split; [rewrite tracer_log_history, Hh; reflexivity|].
  repeat constructor. apply HP.
Qed.

Lemma create_artifact_instance_frame st ty id props :
  let st' := outcome_state (create_artifact_instance st ty id props) in
  same_setting st st' /\ tokens st' = tokens st /\ history st' = history st /\
  uuid_drawn st' = uuid_drawn st.
Proof.
  unfold create_artifact_instance, same_setting.
  destruct (artifacts st !! id); [simpl; auto 10|].
  destruct (communities (model st) !! 0%nat); [|simpl; auto 10].
  destruct (get_artifact _ _); simpl; auto 10.
Qed.

Lemma create_party_frame st name role_names :
  let st' := outcome_state (create_party st name role_names) in
  model st' = model st /\ policy_values st' = policy_values st /\
  artifacts st' = artifacts st /\ tokens st' = tokens st /\
  history st' = history st /\ uuid_drawn st' = uuid_drawn st.
Proof.
  unfold create_party.
  destruct (parties st !! name); [simpl; auto 10|].
  destruct role_names; [simpl; auto 10|].
  destruct (communities (model st) !! 0%nat); [|simpl; auto 10].
  destruct (forallb _ _); simpl; auto 10.
Qed.

(** The built-in side effects write only the artifacts and draw uuids. *)
Lemma builtin_effects_frame st party act kwargs :
  let st' := (outcome_state (builtin_effects w st party act kwargs)).1 in
  same_setting st st' /\ tokens st' = tokens st /\ history st' = history st.
Proof.
  unfold builtin_effects, draw_uuid.
  repeat case_bool_decide.
  all: repeat match goal with
       | |- context [create_artifact_instance ?s ?t ?i ?p] =>
           let H := fresh "H" in
           pose proof (create_artifact_instance_frame s t i p) as H;
           destruct (create_artifact_instance s t i p); simpl in H
       | |- context [match artifacts_getitem ?s ?i with _ => _ end] =>
           destruct (artifacts_getitem s i)
       | |- context [if truthy ?v then _ else _] => destruct (truthy v)
       | |- context [match dict_get_default ?k ?n ?d with _ => _ end] =>
           destruct (dict_get_default k n d)
       | |- context [match ArtifactInstance_getattr ?a ?n with _ => _ end] =>
           destruct (ArtifactInstance_getattr a n)
       | |- context [match artifacts ?s !! ?i with _ => _ end] =>
           destruct (artifacts s !! i)
       end; simpl.
  all: unfold same_setting in *; simpl in *; try tauto.
Qed.

Lemma dict_get_set_ne (d : Dict) k k' v :
  k <> k' -> dict_get (dict_set d k v) k' = dict_get d k'.
Proof.
  intros Hne. induction d as [|[k0 v0] rest IH]; simpl.
  - rewrite bool_decide_eq_false_2 by assumption. reflexivity.
  - destruct (bool_decide (k0 = k)) eqn:Hk; simpl.
    + apply bool_decide_eq_true in Hk as ->.
      rewrite !bool_decide_eq_false_2 by assumption. reflexivity.
    + rewrite IH. reflexivity.
Qed.

(** The built-in side effects write only the keys [loan] and [fine] of
    [kwargs]. *)
Lemma builtin_effects_agent st party act kwargs st2 kwargs' :
  builtin_effects w st party act kwargs = Returned (st2, kwargs') ->
  dict_get kwargs' "agent" = dict_get kwargs "agent".
Proof.
  unfold builtin_effects, draw_uuid.
  repeat case_bool_decide.
  all: repeat match goal with
       | |- context [create_artifact_instance ?s ?t ?i ?p] =>
           destruct (create_artifact_instance s t i p)
       | |- context [match artifacts_getitem ?s ?i with _ => _ end] =>
           destruct (artifacts_getitem s i)
       | |- context [if truthy ?v then _ else _] => destruct (truthy v)
       | |- context [match dict_get_default ?k ?n ?d with _ => _ end] =>
           destruct (dict_get_default k n d)
       | |- context [match ArtifactInstance_getattr ?a ?n with _ => _ end] =>
           destruct (ArtifactInstance_getattr a n)
       | |- context [match artifacts ?s !! ?i with _ => _ end] =>
           destruct (artifacts s !! i)
       end; simpl.
  all: try discriminate.
  all: intros [= _ <-]; try reflexivity.
  all: apply dict_get_set_ne; discriminate.
Qed.

End Phases.

(** ** The token phases: delegation, minting, event firing *)

Lemma find_indexed_Some {A : Type} (f : A -> bool) (l : list A) i x :
  find_indexed f l = Some (i, x) -> l !! i = Some x /\ f x = true.
Proof.
  revert i. induction l as [|y l IH]; intros i; simpl; [discriminate|].
  destruct (f y) eqn:Hf.
  - intros [= <- <-]. auto.
  - destruct (find_indexed f l) as [[j z]|]; [|discriminate].
    intros [= <- <-]. simpl. apply IH. reflexivity.
Qed.

Lemma fire_token_state ev t :
  state_advances (state t) (state (fire_token ev t).1).
Proof.
  unfold fire_token, state_advances.
  destruct (state t) eqn:Hs; simpl.
  - case_bool_decide; simpl; [right; constructor | rewrite Hs; auto].
  - destruct (finish_expression _); simpl; [|auto].
    destruct (evaluate _ _); simpl; [right; constructor | auto].
  - auto.
Qed.

Lemma fire_token_frame ev t :
  token_template (fire_token ev t).1 = token_template t /\
  owner (fire_token ev t).1 = owner t /\
  token_instance_id (fire_token ev t).1 = token_instance_id t /\
  context (fire_token ev t).1 = context t.
Proof.
  unfold fire_token.
  destruct (_ && _); [simpl; auto|].
  destruct (bool_decide _); [|simpl; auto].
  destruct (finish_expression _); [|simpl; auto].
  destruct (evaluate _ _); simpl; auto.
Qed.

Section TokenPhases.

Context (w : World).

(** The delegation block, when it falls through: nothing, or the owner
    of one ACTIVE token of the delegator set to the recipient. *)
Lemma delegation_block_effect st party act kwargs st3 :
  delegation_block w st party act kwargs = BlockContinue st3 ->
  same_setting st st3 /\ artifacts st3 = artifacts st /\
  uuid_drawn st3 = uuid_drawn st /\
  history_grows is_state_change st st3 /\
  (st3 = st \/
   exists i t r,
     tokens st !! i = Some t /\ owner t = party /\ state t = ACTIVE /\
     isinstance_Delegation act = true /\
     dict_get kwargs "agent" = Some (VParty r) /\
     tokens st3 = <[i := set_owner t r]> (tokens st)).
Proof.
  unfold delegation_block, isinstance_Delegation.
  destruct (action_class act) as [| | | |ts dty dname agent];
    try (intros [= <-]; repeat split; auto using history_grows_refl).
  unfold dict_get_default at 1.
  destruct (dict_get kwargs "agent") as [new_owner|] eqn:Hagent; simpl;
    [|discriminate].
  destruct (delegation_recipient new_owner agent) as [e|[r|]] eqn:Hrec;
    try discriminate.
  assert (new_owner = VParty r) as ->.
  { unfold delegation_recipient in Hrec.
    destruct (truthy new_owner); simpl in Hrec; [|discriminate].
    destruct new_owner; try discriminate.
    - destruct agent; [|discriminate]. destruct (has_role _ _); congruence.
    - destruct (ArtifactInstance_getattr _ _), agent; discriminate. }
  destruct (find_indexed _ _) as [[i t]|] eqn:Hfind.
  - apply find_indexed_Some in Hfind as [Hi Hd].
    unfold delegable in Hd. rewrite !andb_true_iff, !bool_decide_eq_true in Hd.
    destruct Hd as [[[Ho _] Hs] _].
    intros [= <-]. split; [|split; [|split; [|split]]].
    + repeat split.
    + reflexivity.
    + reflexivity.
    + apply tracer_log_grows; [reflexivity|]. intros ts'. reflexivity.
    + right. exists i, t, r. auto 10.
  - intros [= <-]. repeat split; auto using history_grows_refl.
Qed.

(** Minting appends one INACTIVE instance per template. *)
Lemma mint_tokens_effect templates : forall st party kwargs,
  let st' := mint_tokens w st party templates kwargs in
  same_setting st st' /\ artifacts st' = artifacts st /\
  history_grows is_token_create st st' /\
  exists new,
    tokens st' = tokens st ++ new /\
    map token_template new = templates /\
    Forall (fun t => state t = INACTIVE) new.
Proof.
  induction templates as [|tmpl rest IH]; intros st party kwargs; simpl.
  - repeat split; auto using history_grows_refl.
    exists []. rewrite app_nil_r. auto.
  - match goal with |- context [mint_tokens w ?s party rest kwargs] =>
      destruct (IH s party kwargs) as (Hset & Hart & Hh & new & Htok & Htmpl & Hst)
    end.
    repeat split.
    + apply Hset. + apply Hset. + apply Hset.
    + rewrite Hart. reflexivity.
    + eapply history_grows_trans; [|exact Hh].
      apply tracer_log_grows; [reflexivity|]. intros ts'. reflexivity.
    + eexists (_ :: new). split; [|split].
      * rewrite Htok. simpl. rewrite <- app_assoc. reflexivity.
      * simpl. rewrite Htmpl. reflexivity.
      * constructor; [reflexivity | exact Hst].
Qed.

(** The loop of [_fire_event] visits every token once. *)
Lemma fire_loop_effect ev todo : forall st done,
  let st' := fire_loop w ev st done todo in
  same_setting st st' /\ artifacts st' = artifacts st /\
  uuid_drawn st' = uuid_drawn st /\
  history_grows is_state_change st st' /\
  tokens st' = done ++ map (fun t => (fire_token ev t).1) todo.
Proof.
  induction todo as [|t rest IH]; intros st done; simpl.
  - rewrite app_nil_r. repeat split; auto using history_grows_same.
  - destruct (fire_token ev t) as [t' changed] eqn:Hf. simpl.
    match goal with |- context [fire_loop w ev ?s ?d rest] =>
      destruct (IH s d) as (Hset & Hart & Hu & Hh & Htok)
    end.
    rewrite Htok, <- app_assoc. simpl.
    destruct changed; simpl in *; repeat split; auto; try apply Hset.
    eapply history_grows_trans; [|exact Hh].
    apply tracer_log_grows; [reflexivity|]. intros ts'. reflexivity.
Qed.

Lemma _fire_event_effect st ev :
  let st' := _fire_event w st ev in
  same_setting st st' /\ artifacts st' = artifacts st /\
  uuid_drawn st' = uuid_drawn st /\
  history_grows is_state_change st st' /\
  tokens st' = map (fun t => (fire_token ev t).1) (tokens st).
Proof. apply (fire_loop_effect ev (tokens st) st []). Qed.

Lemma speech_act_block_appends st party act kwargs :
  exists new,
    tokens (speech_act_block w st party act kwargs) = tokens st ++ new /\
    Forall (fun t => state t = INACTIVE) new.
Proof.
  unfold speech_act_block. destruct (isinstance_SpeechAct act).
  - pose proof (mint_tokens_effect (action_tokens act) st party kwargs)
      as (_ & _ & _ & new & Ht & _ & Hst).
    exists new. auto.
  - exists []. rewrite app_nil_r. auto.
Qed.

End TokenPhases.

(** ** The effect of a permitted action *)

Section Permitted.

Context (w : World).

Lemma perform_permitted_effect st party act kwargs :
  let st' := outcome_state (perform_permitted w st party act kwargs) in
  same_setting st st' /\
  (exists hnew, history st' = history st ++ action_entry w st party act kwargs :: hnew /\
                Forall token_entry hnew) /\
  exists ts1 new,
    delegated party act kwargs (tokens st) ts1 /\
    Forall (fun t => state t = INACTIVE) new /\
    (new = [] \/ map token_template new = action_tokens act) /\
    emitted act (ts1 ++ new) (tokens st').
Proof.
  unfold perform_permitted, perform_until_event.
  remember (log_action w st party act kwargs) as st1 eqn:E1.
  assert (Hh1 : history st1 = history st ++ [action_entry w st party act kwargs])
    by (subst st1; reflexivity).
  assert (Ht1 : tokens st1 = tokens st) by (subst st1; reflexivity).
  assert (Hs1 : same_setting st st1) by (subst st1; repeat split).
  clear E1.
  pose proof (builtin_effects_frame w st1 party act kwargs) as (Hs2 & Ht2 & Hh2).
  assert (Hnone : forall st2, same_setting st1 st2 -> tokens st2 = tokens st1 ->
                  history st2 = history st1 ->
    same_setting st st2 /\
    (exists hnew, history st2 = history st ++ action_entry w st party act kwargs :: hnew /\
                  Forall token_entry hnew) /\
    exists ts1 new,
      delegated party act kwargs (tokens st) ts1 /\
      Forall (fun t => state t = INACTIVE) new /\
      (new = [] \/ map token_template new = action_tokens act) /\
      emitted act (ts1 ++ new) (tokens st2)).
  { intros st2 Hs Ht Hh. split; [eauto using same_setting_trans|]. split.
    - exists []. rewrite Hh, Hh1. auto.
    - exists (tokens st), []. rewrite app_nil_r, Ht, Ht1.
      repeat split; auto; left; reflexivity. }
  pose proof (builtin_effects_agent w st1 party act kwargs) as Hagent.
  destruct (builtin_effects w st1 party act kwargs) as [[st2 kwargs']|e [st2 kw]];
    simpl in Hs2, Ht2, Hh2; [|simpl; auto].
  specialize (Hagent _ _ eq_refl).
  destruct (delegation_block w st2 party act kwargs') as [e| |st3] eqn:Hd;
    simpl; [auto | auto |].
  apply delegation_block_effect in Hd as (Hs3 & _ & _ & Hh3 & Ht3).
  set (st4 := speech_act_block w st3 party act kwargs').
  assert (H4 : same_setting st3 st4 /\ history_grows is_token_create st3 st4 /\
               exists new, tokens st4 = tokens st3 ++ new /\
                 (new = [] \/ map token_template new = action_tokens act) /\
                 Forall (fun t => state t = INACTIVE) new).
  { unfold st4, speech_act_block. destruct (isinstance_SpeechAct act).
    - pose proof (mint_tokens_effect w (action_tokens act) st3 party kwargs')
        as (Hs & _ & Hh & new & Ht & Htm & Hst).
      split; [exact Hs|]. split; [exact Hh|]. exists new. auto.
    - split; [apply same_setting_refl|]. split; [apply history_grows_refl|].
      exists []. rewrite app_nil_r. auto. }
  destruct H4 as (Hs4 & Hh4 & new & Ht4 & Htm & Hst).
  set (st5 := emit_trigger_event w st4 act).
  assert (H5 : same_setting st4 st5 /\ history_grows is_state_change st4 st5 /\
               emitted act (tokens st4) (tokens st5)).
  { unfold st5, emit_trigger_event, emitted. destruct (trigger_event act) as [ev|].
    - pose proof (_fire_event_effect w st4 ev) as (Hs & _ & _ & Hh & Ht).
      split; [exact Hs|]. split; [exact Hh|]. right. exists ev. auto.
    - split; [apply same_setting_refl|]. split; [apply history_grows_refl|]. auto. }
  destruct H5 as (Hs5 & Hh5 & Ht5).
  split; [|split].
  - eauto using same_setting_trans.
  - assert (Hg : history_grows token_entry st2 st5).
    { eapply history_grows_trans; [|eapply history_grows_trans].
      - eapply history_grows_weaken; [|exact Hh3]. intros e He. left. exact He.
      - eapply history_grows_weaken; [|exact Hh4]. intros e He. right. exact He.
      - eapply history_grows_weaken; [|exact Hh5]. intros e He. left. exact He. }
    destruct Hg as (hnew & Hg & Hf). exists hnew.
    rewrite Hg, Hh2, Hh1, <- app_assoc. auto.
  - exists (tokens st3), new. rewrite <- Ht4. repeat split; auto.
    destruct Ht3 as [->|(i & t & r & Hi & Ho & Hst' & Hdel & Hag & Hins)].
    + left. congruence.
    + right. exists i, t, r. rewrite Ht2, Ht1 in Hi, Hins.
      rewrite Hagent in Hag. auto 10.
Qed.

End Permitted.

(** ** What one driver call does to tokens and trace *)

Lemma find_action_name actions name a :
  find_action actions name = Some a -> action_name a = name.
Proof.
  induction actions as [|x rest IH]; simpl; [discriminate|].
  case_bool_decide; [intros [= <-]; assumption | exact IH].
Qed.

Lemma Party_get_action_name p name a :
  Party_get_action p name = Some a -> action_name a = name.
Proof.
  unfold Party_get_action. induction (fulfills_roles p) as [|r rest IH]; simpl;
    [discriminate|].
  destruct (CommunityRole_get_action r name) eqn:Hr.
  - intros [= <-]. eapply find_action_name, Hr.
  - exact IH.
Qed.

Lemma blocking_embargo_Some st party tok :
  blocking_embargo st party = Some tok ->
  tok ∈ tokens st /\ owner tok = party /\ state tok = ACTIVE /\
  isinstance_Embargo (token_template tok) = true.
Proof.
  unfold blocking_embargo. intros H.
  pose proof (find_some _ _ H) as [Hin Hact].
  unfold active_embargo_of in Hact.
  rewrite !andb_true_iff, !bool_decide_eq_true in Hact.
  destruct Hact as [[Ho Hs] He]. rewrite list_elem_of_In. auto.
Qed.

Lemma blocking_embargo_None st party tok :
  blocking_embargo st party = None -> tok ∈ tokens st ->
  active_embargo_of party tok = false.
Proof.
  unfold blocking_embargo. intros H Hin.
  apply (find_none _ _ H). apply list_elem_of_In, Hin.
Qed.

Lemma perform_action_case w st name action kwargs :
  PerformCase w st name action kwargs (perform_action w st name action kwargs).
Proof.
  unfold perform_action.
  destruct (parties st !! name) as [party|] eqn:Hp;
    [|apply case_unknown; auto].
  destruct (Party_get_action party action) as [act|] eqn:Ha;
    [|apply case_unknown; eauto].
  destruct (blocking_embargo st party) as [tok|] eqn:Hb;
    [eapply case_embargo; eauto|].
  destruct (guard act) as [g|] eqn:Hg.
  - destruct (Guard_evaluate w g _) as [e|[|]] eqn:He; simpl.
    + eapply case_guard_raises; eauto.
    + eapply case_permitted; eauto. intros g' Hg'. congruence.
    + rewrite (Party_get_action_name _ _ _ Ha). eapply case_guard; eauto.
  - eapply case_permitted; eauto. intros g' Hg'. congruence.
Qed.

Lemma lifecycle_step_INACTIVE s : lifecycle_step INACTIVE s -> s = ACTIVE.
Proof. inversion 1. reflexivity. Qed.

Lemma lifecycle_step_ACTIVE s : lifecycle_step ACTIVE s -> s = DISCHARGED.
Proof. inversion 1. reflexivity. Qed.

Lemma lifecycle_step_DISCHARGED s : ~ lifecycle_step DISCHARGED s.
Proof. inversion 1. Qed.

Lemma delegated_lookup party act kwargs ts ts1 i t :
  delegated party act kwargs ts ts1 -> ts !! i = Some t ->
  exists t1, ts1 !! i = Some t1 /\
    token_template t1 = token_template t /\ state t1 = state t /\
    (owner t1 = owner t \/ (owner t = party /\ state t = ACTIVE)).
Proof.
  intros [->|(j & tj & r & Hj & Ho & Hs & _ & _ & ->)] Hi.
  - exists t. auto.
  - destruct (decide (j = i)) as [->|Hne].
    + exists (set_owner tj r). rewrite list_lookup_insert_eq
        by (eapply lookup_lt_Some; eauto).
      assert (tj = t) as -> by congruence. simpl. auto 10.
    + exists t. rewrite list_lookup_insert_ne by assumption. auto.
Qed.

Lemma delegated_length party act kwargs ts ts1 :
  delegated party act kwargs ts ts1 -> length ts1 = length ts.
Proof.
  intros [->|(j & tj & r & _ & _ & _ & _ & _ & ->)]; [reflexivity|].
  apply length_insert.
Qed.

Lemma emitted_lookup act ts ts' i t :
  emitted act ts ts' -> ts !! i = Some t ->
  exists t', ts' !! i = Some t' /\
    token_template t' = token_template t /\ owner t' = owner t /\
    state_advances (state t) (state t').
Proof.
  intros [->|(ev & _ & ->)] Hi.
  - exists t. unfold state_advances. auto.
  - exists (fire_token ev t).1. rewrite list_lookup_fmap, Hi. simpl.
    pose proof (fire_token_frame ev t) as (? & ? & _).
    pose proof (fire_token_state ev t). auto.
Qed.

Lemma emitted_lookup_inv act ts ts' i t' :
  emitted act ts ts' -> ts' !! i = Some t' ->
  exists t, ts !! i = Some t /\ state_advances (state t) (state t').
Proof.
  intros [->|(ev & _ & ->)] Hi.
  - exists t'. unfold state_advances. auto.
  - rewrite list_lookup_fmap in Hi.
    destruct (ts !! i) as [t|]; [|discriminate]. injection Hi as <-.
    exists t. split; [reflexivity|]. apply fire_token_state.
Qed.

Lemma emitted_length act ts ts' : emitted act ts ts' -> length ts' = length ts.
Proof. intros [->|(ev & _ & ->)]; [reflexivity|]. apply length_map. Qed.

Lemma token_evolves_refl st perf t : token_evolves st perf t t.
Proof. unfold token_evolves, state_advances. auto. Qed.

Lemma exec_call_effect w st c :
  let st' := outcome_state (exec_call w st c) in
  (forall i t, tokens st !! i = Some t ->
     exists t', tokens st' !! i = Some t' /\ token_evolves st (performer st c) t t') /\
  (forall i t', tokens st' !! i = Some t' -> (length (tokens st) <= i)%nat ->
     state t' = INACTIVE \/ state t' = ACTIVE) /\
  history_grows (action_by st (performer st c)) st st'.
Proof.
  assert (Hsame : forall st', tokens st' = tokens st -> history st' = history st ->
    (forall i t, tokens st !! i = Some t ->
       exists t', tokens st' !! i = Some t' /\ token_evolves st (performer st c) t t') /\
    (forall i t', tokens st' !! i = Some t' -> (length (tokens st) <= i)%nat ->
       state t' = INACTIVE \/ state t' = ACTIVE) /\
    history_grows (action_by st (performer st c)) st st').
  { intros st' Ht Hh. split; [|split].
    - intros i t Hi. exists t. rewrite Ht. auto using token_evolves_refl.
    - intros i t' Hi Hle. rewrite Ht in Hi. apply lookup_lt_Some in Hi. lia.
    - apply history_grows_same, Hh. }
  assert (Hproh : forall party name reason,
    (forall i t, tokens st !! i = Some t ->
       exists t', tokens (log_action_prohibited w st party name reason) !! i = Some t' /\
                  token_evolves st (performer st c) t t') /\
    (forall i t', tokens (log_action_prohibited w st party name reason) !! i = Some t' ->
       (length (tokens st) <= i)%nat -> state t' = INACTIVE \/ state t' = ACTIVE) /\
    history_grows (action_by st (performer st c)) st
                  (log_action_prohibited w st party name reason)).
  { intros party name reason. split; [|split].
    - intros i t Hi. exists t. auto using token_evolves_refl.
    - intros i t' Hi Hle. simpl in Hi. apply lookup_lt_Some in Hi. lia.
    - apply tracer_log_grows; [reflexivity|]. intros ts. unfold action_by. simpl.
      discriminate. }
  destruct c as [name role_names|ty id props|name action kwargs]; simpl.
  - pose proof (create_party_frame st name role_names) as (_ & _ & _ & Ht & Hh & _).
    apply Hsame; assumption.
  - pose proof (create_artifact_instance_frame st ty id props) as (_ & Ht & Hh & _).
    apply Hsame; assumption.
  - destruct (perform_action_case w st name action kwargs)
      as [Hu|party act tok Hp Ha Hb|party act g Hp Ha Hb Hg He
          |party act g e Hp Ha Hb Hg He|party act Hp Ha Hb Hg];
      simpl; [apply Hsame; reflexivity | apply Hproh | apply Hproh
             | apply Hsame; reflexivity |].
    pose proof (perform_permitted_effect w st party act kwargs)
      as (_ & (hnew & Hh & Hf) & ts1 & new & Hdel & Hnew & _ & Hem).
    rewrite Hp. split; [|split].
    + intros i t Hi.
      destruct (delegated_lookup _ _ _ _ _ _ _ Hdel Hi) as (t1 & Hi1 & Htm1 & Hs1 & Ho1).
      assert (Hi1' : (ts1 ++ new) !! i = Some t1) by (apply lookup_app_l_Some, Hi1).
      destruct (emitted_lookup _ _ _ _ _ Hem Hi1') as (t' & Hi' & Htm' & Ho' & Hs').
      exists t'. split; [exact Hi'|]. unfold token_evolves.
      rewrite Htm', Htm1, Ho', <- Hs1. split; [reflexivity|]. split; [exact Hs'|].
      destruct Ho1 as [Ho1|[Ho1 _]]; [left; exact Ho1|].
      right. rewrite Ho1. auto.
    + intros i t' Hi' Hle.
      destruct (emitted_lookup_inv _ _ _ _ _ Hem Hi') as (t2 & Hi2 & Hs2).
      rewrite lookup_app_r in Hi2
        by (rewrite (delegated_length _ _ _ _ _ Hdel); exact Hle).
      apply list_elem_of_lookup_2 in Hi2.
      rewrite Forall_forall in Hnew. rewrite (Hnew _ Hi2) in Hs2.
      destruct Hs2 as [->|Hs2]; [auto|].
      right. apply lifecycle_step_INACTIVE, Hs2.
    + exists (action_entry w st party act kwargs :: hnew). split; [exact Hh|].
      constructor.
      * intros _. exists party. auto.
      * eapply Forall_impl; [exact Hf|]. intros e [He|He] Hact;
          unfold is_state_change, is_token_create in He; congruence.
Qed.

(** A call by a party under an ACTIVE embargo writes nothing but at most
    one [ACTION_PROHIBITED] entry. *)
Lemma perform_action_blocked w st name action kwargs party tok :
  parties st !! name = Some party ->
  blocking_embargo st party = Some tok ->
  perform_action w st name action kwargs = Returned st \/
  exists reason,
    perform_action w st name action kwargs =
    Returned (log_action_prohibited w st party action reason).
Proof.
  intros Hp Hb. unfold perform_action. rewrite Hp.
  destruct (Party_get_action party action); [|auto].
  rewrite Hb. eauto.
Qed.

(** * The claims *)

(** ** C1: the state of a minted token *)

(** C1, as the specification states it, fails: the librarian's
    authorization [grantReadingRoom] mints a [reading_room] permit whose
    template has no activation trigger, and the instance is INACTIVE, not
    ACTIVE, when the call returns (no event was fired). *)
Lemma minted_without_trigger_is_not_active :
  exists st' t,
    perform_action Library.world Library.engine0 "Libby" "grantReadingRoom" [] =
      Returned st' /\
    tokens st' = [t] /\
    activation_trigger (token_template t) = None /\
    spec_initial_state (token_template t) = ACTIVE /\
    state t = INACTIVE /\
    state t <> spec_initial_state (token_template t).
Proof.
  eexists _, _. split; [vm_compute; reflexivity|].
  split; [vm_compute; reflexivity|].
  repeat split; try reflexivity. discriminate.
Qed.

(** C1, amended: the speech-act block of [perform_action] appends one
    instance per token template of the action, in order, and every one of
    them is created INACTIVE (the dataclass default), whether or not its
    template has an activation trigger; the tokens already there are not
    touched. *)
Theorem minted_tokens_are_inactive (w : World) (st : Engine) (party : Party)
    (act : Action) (kwargs : Dict) :
  exists new,
    tokens (speech_act_block w st party act kwargs) = tokens st ++ new /\
    map token_template new =
      (if isinstance_SpeechAct act then action_tokens act else []) /\
    Forall (fun t => state t = INACTIVE) new.
Proof.
  unfold speech_act_block. destruct (isinstance_SpeechAct act).
  - pose proof (mint_tokens_effect w (action_tokens act) st party kwargs)
      as (_ & _ & _ & new & Ht & Htm & Hst).
    exists new. auto.
  - exists []. rewrite app_nil_r. auto.
Qed.

(** ** C10: one state change per token and firing *)

(** C10: [_fire_event] rewrites every token once, by [fire_token]; the
    state of a token stays or takes one step of the life cycle, and an
    INACTIVE token whose activation trigger is the fired event ends the
    firing ACTIVE, whatever its finish expression. *)
Theorem fire_event_changes_state_at_most_once (w : World) (st : Engine) (ev : Event)
    (i : nat) (t : DeonticTokenInstance) :
  tokens st !! i = Some t ->
  length (tokens (_fire_event w st ev)) = length (tokens st) /\
  exists t',
    tokens (_fire_event w st ev) !! i = Some t' /\
    t' = (fire_token ev t).1 /\
    state_advances (state t) (state t') /\
    (state t = INACTIVE -> activation_trigger (token_template t) = Some ev ->
     state t' = ACTIVE).
Proof.
  intros Hi.
  pose proof (_fire_event_effect w st ev) as (_ & _ & _ & _ & Ht).
  rewrite Ht. split; [apply length_map|].
  exists (fire_token ev t).1. rewrite list_lookup_fmap, Hi.
  split; [reflexivity|]. split; [reflexivity|].
  split; [apply fire_token_state|].
  intros Hs Htr. unfold fire_token. rewrite Hs, Htr.
  rewrite !bool_decide_eq_true_2 by reflexivity. reflexivity.
Qed.

(** The [receipt] token is activated by [itemReturned], the event that
    also satisfies its finish expression: it ends the firing ACTIVE. *)
Lemma fire_event_changes_state_at_most_once_witness :
  evaluate (EE None [OpEvent Library.itemReturned]) [Library.itemReturned] = true /\
  exists t',
    tokens (_fire_event Library.world Library.pending_receipt Library.itemReturned)
      !! 0%nat = Some t' /\
    state t' = ACTIVE.
Proof.
  split; [vm_compute; reflexivity|].
  destruct (fire_event_changes_state_at_most_once Library.world
              Library.pending_receipt Library.itemReturned 0
              (mkDeonticTokenInstance Library.receipt Library.Alice "token-0000aa"
                                      INACTIVE []))
    as (_ & t' & Hi & _ & _ & Hact); [reflexivity|].
  exists t'. split; [exact Hi|]. apply Hact; reflexivity.
Defined.

(** ** C6: guard closure *)

Lemma Guard_evaluate_caught w g ctx :
  py_eval w (raw g) ctx = inr false \/
  (exists e, py_eval w (raw g) ctx = inl e /\ is_Exception e = true) ->
  Guard_evaluate w g ctx = inr false.
Proof.
  unfold Guard_evaluate. intros [->|(e & -> & ->)]; reflexivity.
Qed.

Lemma Guard_evaluate_uncaught w g ctx e :
  py_eval w (raw g) ctx = inl e -> is_Exception e = false ->
  Guard_evaluate w g ctx = inl e.
Proof. unfold Guard_evaluate. intros -> ->. reflexivity. Qed.

Lemma Guard_evaluate_true w g ctx :
  Guard_evaluate w g ctx = inr true -> py_eval w (raw g) ctx = inr true.
Proof.
  unfold Guard_evaluate. destruct (py_eval w (raw g) ctx) as [e|b].
  - destruct (is_Exception e); discriminate.
  - congruence.
Qed.

Lemma set_history_same st : set_history st (history st) = st.
Proof. destruct st. reflexivity. Qed.

(** C6, as the specification states it, fails for a guard that raises
    an exception outside [Exception]: the guard of [requestExit] calls
    [sys.exit], [Guard.evaluate] does not catch the [SystemExit], and it
    leaves [perform_action], which has written no [ACTION_PROHIBITED]
    entry; the false guard of [requestRenewal] is answered with one. *)
Lemma uncaught_guard_exception_is_not_treated_as_false :
  let raising := perform_action Library.world Library.borrowed "Alice" "requestExit" [] in
  let false_guard :=
    perform_action Library.world Library.borrowed "Alice" "requestRenewal" [] in
  guard Library.requestExit = Some (mkGuard "__import__('sys').exit()") /\
  Guard_evaluate Library.world (mkGuard "__import__('sys').exit()")
    (guard_context Library.borrowed Library.Alice []) = inl SystemExit /\
  raising = Raised SystemExit Library.borrowed /\
  returns false_guard = true /\
  map event_type (history (outcome_state false_guard)) =
    map event_type (history Library.borrowed) ++ ["ACTION_PROHIBITED"%string].
Proof.
  cbv zeta. split; [reflexivity|]. split; [reflexivity|].
  split; [vm_compute; reflexivity|]. split; vm_compute; reflexivity.
Qed.



(** ** C3: normative denials *)

(** C3, as the specification states it, fails for delegations: Alice
    delegates her burden to Libby, who does not fulfil [ProxyBorrower];
    the call returns after having recorded an [ACTION] entry, and no
    [ACTION_PROHIBITED] entry is written. *)
Lemma unmet_delegation_is_not_logged_as_prohibited :
  let r := perform_action Library.world Library.borrowed "Alice"
             "return_item_delegation"
             [("loan", Library.the_loan); ("agent", VParty Library.Libby)] in
  has_role Library.Libby "ProxyBorrower" = false /\
  returns r = true /\
  map event_type (history (outcome_state r)) =
    map event_type (history Library.borrowed) ++ ["ACTION"%string] /\
  "ACTION_PROHIBITED"%string ∉ map event_type (history (outcome_state r)).
Proof.
  cbv zeta. split; [reflexivity|]. split; [vm_compute; reflexivity|].
  split; [vm_compute; reflexivity|].
  apply (proj1 (bool_decide_eq_false _)). vm_compute. reflexivity.
Qed.

(** C3, amended to the embargo screen and the guard screen: a call
    blocked by an ACTIVE embargo of the party, or whose guard is not
    true, returns the engine it was given with one more trace entry, the
    [ACTION_PROHIBITED] written by [log_action_prohibited]; parties,
    artifacts and tokens (owners and states) are those before the call. *)
Theorem embargo_and_guard_denials_are_logged (w : World) (st : Engine)
    (name action : string) (kwargs : Dict) (party : Party) (act : Action) :
  parties st !! name = Some party ->
  Party_get_action party action = Some act ->
  is_Some (blocking_embargo st party) \/
  (exists g, guard act = Some g /\
             Guard_evaluate w g (guard_context st party kwargs) = inr false) ->
  exists reason,
    perform_action w st name action kwargs =
      Returned (log_action_prohibited w st party action reason) /\
    log_action_prohibited w st party action reason =
      set_history st
        (history st ++ [mkLogEntry (now w (length (history st))) "ACTION_PROHIBITED"
                                   (ProhibitedDetails party action reason)]).
Proof.
  intros Hp Ha Hden. unfold perform_action. rewrite Hp, Ha.
  destruct (blocking_embargo st party) as [tok|] eqn:Hb.
  - eexists. split; reflexivity.
  - destruct Hden as [[tok Htok]|(g & Hg & He)]; [discriminate|].
    rewrite Hg, He. simpl. rewrite (Party_get_action_name _ _ _ Ha).
    eexists. split; reflexivity.
Qed.

(** Alice, under her ACTIVE [no_borrowing] embargo, tries to borrow. *)
Lemma embargo_and_guard_denials_are_logged_witness :
  exists reason,
    perform_action Library.world Library.suspended_alice "Alice" "borrowItem"
      [("item", Library.book)] =
    Returned (log_action_prohibited Library.world Library.suspended_alice
                Library.Alice "borrowItem" reason).
Proof.
  destruct (embargo_and_guard_denials_are_logged Library.world
              Library.suspended_alice "Alice" "borrowItem" [("item", Library.book)]
              Library.Alice Library.borrowItem)
    as (reason & Hr & _); [reflexivity | reflexivity | |].
  - left. vm_compute. eexists. reflexivity.
  - exists reason. exact Hr.
Defined.

(** ** C8: exceptions reaching the driver *)

(** C8 fails on the code: a delegation performed without the [agent]
    keyword argument enters the branch guarded by [not new_owner], whose
    error message reads [new_owner.name]; the [AttributeError] leaves
    [perform_action]. *)
Theorem delegation_without_agent_raises :
  exists st',
    perform_action Library.world Library.borrowed "Alice" "return_item_delegation"
      [("loan", Library.the_loan)] = Raised AttributeError st'.
Proof. eexists. vm_compute. reflexivity. Qed.

(** ** C9: duplicate names *)

Lemma build_index_Returned {A : Type} (name : A -> string) (items : list A) :
  forall index index',
    build_index name items index = Returned index' ->
    NoDup (map name items) /\ forall x, x ∈ items -> index !! name x = None.
Proof.
  induction items as [|x rest IH]; intros index index'; simpl.
  - intros _. split; [constructor|]. intros x Hx. apply elem_of_nil in Hx. contradiction.
  - destruct (index !! name x) eqn:Hx; [discriminate|].
    intros H. apply IH in H as [Hnd Hfresh].
    assert (Hrest : forall y, y ∈ rest -> name y <> name x /\ index !! name y = None).
    { intros y Hy. specialize (Hfresh y Hy).
      apply lookup_insert_None in Hfresh as [? ?]. auto. }
    split.
    + constructor; [|exact Hnd].
      intros Hin. apply list_elem_of_fmap in Hin as (y & Hy & Hin).
      destruct (Hrest y Hin) as [Hne _]. congruence.
    + intros y Hy. apply elem_of_cons in Hy as [->|Hy]; [exact Hx|].
      apply Hrest, Hy.
Qed.

Lemma build_index_raises_ValueError {A : Type} (name : A -> string) (items : list A) :
  forall index e index',
    build_index name items index = Raised e index' -> e = ValueError.
Proof.
  induction items as [|x rest IH]; intros index e index'; simpl; [discriminate|].
  destruct (index !! name x); [intros [= <- _]; reflexivity | apply IH].
Qed.

Lemma build_index_duplicate {A : Type} (name : A -> string) (items : list A) :
  has_duplicate (map name items) ->
  exists index', build_index name items ∅ = Raised ValueError index'.
Proof.
  intros Hdup. destruct (build_index name items ∅) as [index'|e index'] eqn:Hb.
  - apply build_index_Returned in Hb as [Hnd _]. contradiction.
  - rewrite (build_index_raises_ValueError _ _ _ _ _ Hb). eauto.
Qed.

(** C9, as the specification states it, fails for policies: a community
    with two policies named [maxLoans] passes [build_indexes], and the
    engine is built with the initial value of the second one; nothing is
    refused. *)
Lemma duplicate_policies_are_not_refused :
  let c := Library.community_two_policies in
  has_duplicate (map policy_name (model_policies (mkModel [c]))) /\
  returns (build_indexes c) = true /\
  policy_values (Engine_init (mkModel [outcome_state (build_indexes c)]))
    !! "maxLoans" = Some (initial_value (Library.maxLoans 5)).
Proof.
  cbv zeta. split; [|split].
  - intros H. simpl in H. apply NoDup_cons in H as [Hnin _].
    apply Hnin. constructor.
  - reflexivity.
  - vm_compute. reflexivity.
Qed.

(** C9, amended to the three indexes that [build_indexes] builds: if two
    roles, two artifacts or two events of the community share a name,
    [build_indexes] raises [ValueError]. *)
Theorem build_indexes_refuses_duplicates (c : Community) :
  has_duplicate (map role_name (roles c)) \/
  has_duplicate (map artifact_name (artifacts_of c)) \/
  has_duplicate (map event_name (events c)) ->
  exists c', build_indexes c = Raised ValueError c'.
Proof.
  intros Hdup. unfold build_indexes.
  destruct (build_index role_name (roles c) ∅) as [ri|e ri] eqn:Hr.
  2: { rewrite (build_index_raises_ValueError _ _ _ _ _ Hr). eauto. }
  destruct (build_index artifact_name (artifacts_of c) ∅) as [ai|e ai] eqn:Ha.
  2: { rewrite (build_index_raises_ValueError _ _ _ _ _ Ha). eauto. }
  destruct (build_index event_name (events c) ∅) as [ei|e ei] eqn:He.
  2: { rewrite (build_index_raises_ValueError _ _ _ _ _ He). eauto. }
  apply build_index_Returned in Hr as [Hr _].
  apply build_index_Returned in Ha as [Ha _].
  apply build_index_Returned in He as [He _].
  unfold has_duplicate in Hdup. tauto.
Qed.

(** A community that lists the role [Borrower] twice. *)
Lemma build_indexes_refuses_duplicates_witness :
  exists c', build_indexes Library.community_two_roles = Raised ValueError c'.
Proof.
  apply (build_indexes_refuses_duplicates Library.community_two_roles).
  left. intros H. simpl in H. apply NoDup_cons in H as [Hnin _].
  apply Hnin. constructor.
Defined.

(** ** C2: delegation conservation *)

(** C2, as the specification states it, fails in two ways.  The
    delegation [handover] emits [itemReturned]: the call hands Alice's
    burden to Bob and the event discharges it in the same call, so the
    state of a token changes.  The delegation [handover_with_permit]
    carries a token template of its own: being a speech act, it mints a
    token, so the number of tokens changes. *)
Lemma delegation_changes_state_or_count :
  let kwargs := [("loan", Library.the_loan); ("agent", VParty Library.Bob)] in
  let r1 := perform_action Library.world Library.borrowed "Alice" "handover" kwargs in
  let r2 := perform_action Library.world Library.borrowed "Alice"
              "handover_with_permit" kwargs in
  map state (tokens Library.borrowed) = [ACTIVE] /\
  returns r1 = true /\
  map owner (tokens (outcome_state r1)) = [Library.Bob] /\
  map state (tokens (outcome_state r1)) = [DISCHARGED] /\
  returns r2 = true /\
  map owner (tokens (outcome_state r2)) = [Library.Bob; Library.Alice] /\
  length (tokens (outcome_state r2)) <> length (tokens Library.borrowed).
Proof.
  cbv zeta. repeat split; try (vm_compute; reflexivity).
  vm_compute. discriminate.
Qed.

(** C2, amended: performing a Delegation that carries no token templates
    (as the loader builds it) and emits no trigger event either leaves
    the tokens as they are, or sets the owner of exactly one token, an
    ACTIVE token of the performer, to the party passed as [agent]; in
    both cases the number of tokens, and the state and the template of
    every token, are unchanged. *)
Theorem delegation_conservation (w : World) (st : Engine) (name action : string)
    (kwargs : Dict) (party : Party) (act : Action) :
  parties st !! name = Some party ->
  Party_get_action party action = Some act ->
  isinstance_Delegation act = true ->
  action_tokens act = [] ->
  trigger_event act = None ->
  let st' := outcome_state (perform_action w st name action kwargs) in
  length (tokens st') = length (tokens st) /\
  map state (tokens st') = map state (tokens st) /\
  map token_template (tokens st') = map token_template (tokens st) /\
  (tokens st' = tokens st \/
   exists i t recipient,
     tokens st !! i = Some t /\ owner t = party /\ state t = ACTIVE /\
     dict_get kwargs "agent" = Some (VParty recipient) /\
     tokens st' = <[i := set_owner t recipient]> (tokens st)).
Proof.
  intros Hp Ha Hdel Htoks Hev.
  assert (Hmain :
    tokens (outcome_state (perform_action w st name action kwargs)) = tokens st \/
    exists i t recipient,
      tokens st !! i = Some t /\ owner t = party /\ state t = ACTIVE /\
      dict_get kwargs "agent" = Some (VParty recipient) /\
      tokens (outcome_state (perform_action w st name action kwargs)) =
        <[i := set_owner t recipient]> (tokens st)).
  { destruct (perform_action_case w st name action kwargs)
      as [Hu|party' act' tok Hp' Ha' Hb|party' act' g Hp' Ha' Hb Hg He
          |party' act' g e Hp' Ha' Hb Hg He|party' act' Hp' Ha' Hb Hg]; simpl; auto.
    assert (party' = party) as -> by congruence.
    assert (act' = act) as -> by congruence.
    pose proof (perform_permitted_effect w st party act kwargs)
      as (_ & _ & ts1 & new & Hd & _ & Hnew & Hem).
    assert (new = []) as ->.
    { destruct Hnew as [->|Hnew]; [reflexivity|].
      rewrite Htoks in Hnew. destruct new; [reflexivity|discriminate]. }
    rewrite app_nil_r in Hem.
    destruct Hem as [Hem|(ev & Hev' & _)]; [|congruence].
    rewrite Hem.
    destruct Hd as [->|(i & t & r & Hi & Ho & Hs & _ & Hag & ->)]; [auto|].
    right. exists i, t, r. auto 10. }
  cbv zeta.
  destruct Hmain as [->|(i & t & r & Hi & Ho & Hs & Hag & Heq)]; [auto 10|].
  rewrite Heq. split; [apply length_insert|].
  split; [|split].
  - rewrite list_fmap_insert. simpl. apply list_insert_id.
    rewrite list_lookup_fmap, Hi. reflexivity.
  - rewrite list_fmap_insert. simpl. apply list_insert_id.
    rewrite list_lookup_fmap, Hi. reflexivity.
  - right. exists i, t, r. rewrite <- Heq. auto 10.
Qed.

(** Alice hands her [return_item] burden to Bob. *)
Lemma delegation_conservation_witness :
  let kwargs := [("loan", Library.the_loan); ("agent", VParty Library.Bob)] in
  let st' := outcome_state (perform_action Library.world Library.borrowed "Alice"
                              "return_item_delegation" kwargs) in
  map owner (tokens Library.borrowed) = [Library.Alice] /\
  map owner (tokens st') = [Library.Bob] /\
  length (tokens st') = length (tokens Library.borrowed) /\
  map state (tokens st') = map state (tokens Library.borrowed) /\
  map token_template (tokens st') = map token_template (tokens Library.borrowed).
Proof.
  cbv zeta. split; [vm_compute; reflexivity|]. split; [vm_compute; reflexivity|].
  destruct (delegation_conservation Library.world Library.borrowed "Alice"
              "return_item_delegation"
              [("loan", Library.the_loan); ("agent", VParty Library.Bob)]
              Library.Alice Library.return_item_delegation)
    as (Hlen & Hst & Htm & _); try reflexivity.
  auto.
Defined.

(** ** C5: token monotonicity *)

Lemma snap_step_same s s' : tokens s' = tokens s -> snap_step s s'.
Proof.
  intros H. split.
  - intros i t Hi. exists t. rewrite H. unfold state_advances. auto.
  - intros i t' Hi Hn. congruence.
Qed.

Lemma perform_until_event_left w st party act kwargs o :
  perform_until_event w st party act kwargs = inl o ->
  tokens (outcome_state o) = tokens st.
Proof.
  unfold perform_until_event.
  pose proof (builtin_effects_frame w (log_action w st party act kwargs) party act kwargs)
    as (_ & Ht & _).
  destruct (builtin_effects _ _ _ _ _) as [[st2 kwargs']|e [st2 kw]]; simpl in Ht.
  - destruct (delegation_block w st2 party act kwargs'); intros [= <-]; exact Ht.
  - intros [= <-]. exact Ht.
Qed.

Lemma perform_until_event_reached w st party act kwargs st4 :
  perform_until_event w st party act kwargs = inr st4 ->
  exists ts1 new,
    delegated party act kwargs (tokens st) ts1 /\
    Forall (fun t => state t = INACTIVE) new /\
    tokens st4 = ts1 ++ new.
Proof.
  unfold perform_until_event.
  pose proof (builtin_effects_frame w (log_action w st party act kwargs) party act kwargs)
    as (_ & Ht & _).
  pose proof (builtin_effects_agent w (log_action w st party act kwargs) party act kwargs)
    as Hagent.
  destruct (builtin_effects _ _ _ _ _) as [[st2 kwargs']|e [st2 kw]];
    simpl in Ht; [|discriminate].
  specialize (Hagent _ _ eq_refl).
  destruct (delegation_block w st2 party act kwargs') as [e| |st3] eqn:Hd;
    try discriminate.
  intros [= <-].
  apply delegation_block_effect in Hd as (_ & _ & _ & _ & Ht3).
  destruct (speech_act_block_appends w st3 party act kwargs')
    as (new & Hnew & Hst).
  exists (tokens st3), new. split; [|auto].
  destruct Ht3 as [->|(i & t & r & Hi & Ho & Hs & Hdel & Hag & Hins)].
  - left. exact Ht.
  - right. exists i, t, r. simpl in Ht. rewrite Ht in Hi, Hins.
    rewrite Hagent in Hag. auto 10.
Qed.

Lemma before_trigger_event_Some w st name action kwargs st4 :
  before_trigger_event w st name action kwargs = Some st4 ->
  exists party act,
    parties st !! name = Some party /\
    Party_get_action party action = Some act /\
    blocking_embargo st party = None /\
    perform_until_event w st party act kwargs = inr st4 /\
    perform_action w st name action kwargs = Returned (emit_trigger_event w st4 act).
Proof.
  unfold before_trigger_event, perform_action, perform_permitted.
  destruct (parties st !! name) as [party|]; [|discriminate].
  destruct (Party_get_action party action) as [act|] eqn:Ha; [|discriminate].
  destruct (blocking_embargo st party) eqn:Hb; [discriminate|].
  intros H. exists party, act.
  destruct (guard act) as [g|].
  - destruct (Guard_evaluate w g _) as [e|[|]]; simpl in *; try discriminate.
    destruct (perform_until_event w st party act kwargs); [discriminate|].
    injection H as ->. repeat split; auto.
  - destruct (perform_until_event w st party act kwargs); [discriminate|].
    injection H as ->. repeat split; auto.
Qed.

Lemma before_trigger_event_None w st name action kwargs :
  before_trigger_event w st name action kwargs = None ->
  tokens (outcome_state (perform_action w st name action kwargs)) = tokens st.
Proof.
  unfold before_trigger_event, perform_action, perform_permitted.
  destruct (parties st !! name) as [party|]; [|reflexivity].
  destruct (Party_get_action party action) as [act|]; [|reflexivity].
  destruct (blocking_embargo st party); [reflexivity|].
  pose proof (perform_until_event_left w st party act kwargs) as Hleft.
  destruct (guard act) as [g|].
  - destruct (Guard_evaluate w g _) as [e|[|]]; simpl; try reflexivity.
    destruct (perform_until_event w st party act kwargs); [|discriminate].
    intros _. apply Hleft. reflexivity.
  - destruct (perform_until_event w st party act kwargs); [|discriminate].
    intros _. apply Hleft. reflexivity.
Qed.

Lemma snap_step_reached w st party act kwargs st4 :
  perform_until_event w st party act kwargs = inr st4 -> snap_step st st4.
Proof.
  intros H. apply perform_until_event_reached in H as (ts1 & new & Hd & Hnew & Ht).
  split.
  - intros i t Hi.
    destruct (delegated_lookup _ _ _ _ _ _ _ Hd Hi) as (t1 & Hi1 & _ & Hs1 & _).
    exists t1. rewrite Ht. split; [apply lookup_app_l_Some, Hi1|].
    left. exact Hs1.
  - intros i t' Hi' Hn. rewrite Ht in Hi'.
    apply lookup_ge_None in Hn.
    rewrite lookup_app_r in Hi'
      by (rewrite (delegated_length _ _ _ _ _ Hd); exact Hn).
    apply list_elem_of_lookup_2 in Hi'.
    rewrite Forall_forall in Hnew. apply Hnew, Hi'.
Qed.

Lemma snap_step_emit w st4 act : snap_step st4 (emit_trigger_event w st4 act).
Proof.
  unfold emit_trigger_event. destruct (trigger_event act) as [ev|];
    [|apply snap_step_same; reflexivity].
  pose proof (_fire_event_effect w st4 ev) as (_ & _ & _ & _ & Ht).
  split.
  - intros i t Hi. exists (fire_token ev t).1.
    rewrite Ht, list_lookup_fmap, Hi. split; [reflexivity|]. apply fire_token_state.
  - intros i t' Hi' Hn. rewrite Ht, list_lookup_fmap, Hn in Hi'. discriminate.
Qed.

(** The observations of one call are linked by [snap_step]. *)
Lemma call_snap_steps w st c :
  let st' := outcome_state (exec_call w st c) in
  (intermediate w st c = [] /\ snap_step st st') \/
  (exists st4, intermediate w st c = [st4] /\ snap_step st st4 /\ snap_step st4 st').
Proof.
  destruct c as [name role_names|ty id props|name action kwargs]; simpl.
  - left. split; [reflexivity|]. apply snap_step_same.
    apply (create_party_frame st name role_names).
  - left. split; [reflexivity|]. apply snap_step_same.
    apply (create_artifact_instance_frame st ty id props).
  - destruct (before_trigger_event w st name action kwargs) as [st4|] eqn:Hb.
    + right. exists st4. split; [reflexivity|].
      apply before_trigger_event_Some in Hb as (party & act & _ & _ & _ & Hu & ->).
      split; [eapply snap_step_reached, Hu | apply snap_step_emit].
    + left. split; [reflexivity|]. apply snap_step_same.
      apply before_trigger_event_None, Hb.
Qed.

Lemma observed_from_last s i : observed_from s i (observation s i).
Proof.
  unfold observed_from, observation.
  destruct (tokens s !! i) as [t|]; simpl; split; auto; constructor.
Qed.

Lemma observed_from_step s s' i l :
  snap_step s s' -> observed_from s' i l -> observed_from s i (observation s i ++ l).
Proof.
  intros [Hkeep Hnew] [Hadv Hhead]. unfold observed_from, observation.
  destruct (tokens s !! i) as [t|] eqn:Hi; simpl.
  - destruct (Hkeep i t Hi) as (t' & Hi' & Hs). rewrite Hi' in Hhead.
    destruct l as [|s0 l]; [discriminate|]. injection Hhead as ->.
    split; [|reflexivity]. constructor; assumption.
  - split; [exact Hadv|].
    destruct (tokens s' !! i) as [t'|] eqn:Hi'; [|exact Hhead].
    right. rewrite Hhead. f_equal. eapply Hnew; eauto.
Qed.

Lemma token_states_nil w st i : token_states w st [] i = observation st i.
Proof.
  unfold token_states, observation. simpl.
  destruct (tokens st !! i); reflexivity.
Qed.

Lemma token_states_cons w st c rest i :
  token_states w st (c :: rest) i =
  observation st i ++
  omap (fun s => state <$> tokens s !! i) (intermediate w st c) ++
  token_states w (outcome_state (exec_call w st c)) rest i.
Proof.
  unfold token_states, observation. simpl. rewrite omap_app.
  destruct (tokens st !! i); reflexivity.
Qed.

Lemma token_states_observed w calls : forall st i,
  observed_from st i (token_states w st calls i).
Proof.
  induction calls as [|c rest IH]; intros st i.
  - rewrite token_states_nil. apply observed_from_last.
  - rewrite token_states_cons.
    destruct (call_snap_steps w st c) as [[-> Hstep]|(st4 & -> & H1 & H2)].
    + simpl. eapply observed_from_step; [exact Hstep | apply IH].
    + eapply observed_from_step; [exact H1|].
      replace (omap (fun s => state <$> tokens s !! i) [st4])
        with (observation st4 i)
        by (unfold observation; simpl; destruct (tokens st4 !! i); reflexivity).
      eapply observed_from_step; [exact H2 | apply IH].
Qed.

(** An advancing sequence, without its repetitions, is an initial part
    of the life cycle taken from its first state. *)
Lemma collapse_advancing l :
  advancing l ->
  forall s, head l = Some s ->
    head (collapse l) = Some s /\ collapse l `prefix_of` lifecycle_from s.
Proof.
  induction 1 as [|s0|s0 s1 l Hstep Hadv IH]; intros s Hs; simpl in Hs.
  - discriminate.
  - injection Hs as ->. simpl. split; [reflexivity|].
    destruct s; eexists; reflexivity.
  - injection Hs as ->.
    destruct (IH s1 eq_refl) as [Hh Hp].
    change (collapse (s :: s1 :: l)) with
      (match collapse (s1 :: l) with
       | [] => [s]
       | s' :: more => if bool_decide (s = s') then s' :: more else s :: s' :: more
       end).
    destruct (collapse (s1 :: l)) as [|s' more]; [discriminate|].
    injection Hh as ->.
    destruct Hstep as [->|Hstep].
    + rewrite bool_decide_eq_true_2 by reflexivity. auto.
    + destruct Hstep; simpl; (split; [reflexivity|]);
        apply prefix_cons; exact Hp.
Qed.

(** C5: along every run, the states in which a token is observed (before
    and after each call, and between minting and event firing inside a
    call), with repetitions removed, are a contiguous part of INACTIVE,
    ACTIVE, DISCHARGED; for a token created during the run they are a
    prefix of it.  No state is entered twice and none is left backwards. *)
Theorem token_monotonicity (w : World) (st : Engine) (calls : list Call) (i : nat) :
  exists before,
    (before ++ collapse (token_states w st calls i)) `prefix_of` lifecycle /\
    (tokens st !! i = None -> before = []).
Proof.
  destruct (token_states_observed w calls st i) as [Hadv Hhead].
  destruct (token_states w st calls i) as [|s l] eqn:Hl.
  - exists []. split; [apply prefix_nil | reflexivity].
  - destruct (collapse_advancing _ Hadv s eq_refl) as [_ Hp].
    exists (lifecycle_before s). split.
    + replace lifecycle with (lifecycle_before s ++ lifecycle_from s)
        by (destruct s; reflexivity).
      apply prefix_app, Hp.
    + intros Hn. rewrite Hn in Hhead.
      destruct Hhead as [Hnil|Hh]; [discriminate|].
      injection Hh as ->. reflexivity.
Qed.

(** ** C4: embargo safety *)

Lemma run_app w st pre post : run w st (pre ++ post) = run w (run w st pre) post.
Proof. unfold run. apply foldl_app. Qed.

Lemma run_cons w st c rest :
  run w st (c :: rest) = run w (outcome_state (exec_call w st c)) rest.
Proof. reflexivity. Qed.

Lemma active_embargo_blocks st i tok :
  tokens st !! i = Some tok -> state tok = ACTIVE ->
  isinstance_Embargo (token_template tok) = true ->
  blocking_embargo st (owner tok) <> None.
Proof.
  intros Hi Hs He Hn.
  pose proof (blocking_embargo_None st (owner tok) tok Hn
                (list_elem_of_lookup_2 _ _ _ Hi)) as Hf.
  unfold active_embargo_of in Hf.
  rewrite He, Hs, !bool_decide_eq_true_2 in Hf by reflexivity. discriminate.
Qed.

Lemma run_keeps_discharged w calls : forall st i t,
  tokens st !! i = Some t -> state t = DISCHARGED ->
  exists t', tokens (run w st calls) !! i = Some t' /\ state t' = DISCHARGED.
Proof.
  induction calls as [|c rest IH]; intros st i t Hi Hs.
  - exists t. auto.
  - rewrite run_cons.
    destruct (exec_call_effect w st c) as (Hkeep & _ & _).
    destruct (Hkeep i t Hi) as (t1 & Hi1 & _ & Hadv & _).
    apply (IH _ i t1 Hi1).
    destruct Hadv as [->|Hstep]; [exact Hs|].
    rewrite Hs in Hstep. destruct (lifecycle_step_DISCHARGED _ Hstep).
Qed.

(** One call, made while the token at [i] is an ACTIVE embargo: the
    token keeps its owner and its template, and the call writes no
    [ACTION] entry of that owner. *)
Lemma embargo_step w st c i tok :
  tokens st !! i = Some tok -> state tok = ACTIVE ->
  isinstance_Embargo (token_template tok) = true ->
  exists tok1,
    tokens (outcome_state (exec_call w st c)) !! i = Some tok1 /\
    owner tok1 = owner tok /\ token_template tok1 = token_template tok /\
    (state tok1 = ACTIVE \/ state tok1 = DISCHARGED) /\
    history_grows (no_action_of (owner tok)) st (outcome_state (exec_call w st c)).
Proof.
  intros Hi Hs He.
  pose proof (active_embargo_blocks st i tok Hi Hs He) as Hblock.
  destruct (exec_call_effect w st c) as (Hkeep & _ & Hh).
  destruct (Hkeep i tok Hi) as (tok1 & Hi1 & Htm & Hadv & Ho).
  exists tok1. split; [exact Hi1|]. split; [|split; [exact Htm|split]].
  - destruct Ho as [Ho|[_ Hn]]; [exact Ho | contradiction].
  - rewrite Hs in Hadv. destruct Hadv as [->|Hstep]; [auto|].
    right. apply lifecycle_step_ACTIVE, Hstep.
  - eapply history_grows_weaken; [|exact Hh].
    intros e Hact Hty Hparty. destruct (Hact Hty) as (p & _ & Hp & Hn).
    assert (p = owner tok) as -> by congruence. contradiction.
Qed.

(** The window of an embargo: if the token at [i] is an ACTIVE embargo
    before a run and still ACTIVE after it, it was an ACTIVE embargo of
    the same owner after every prefix of the run, and that prefix wrote no
    [ACTION] entry of the owner. *)
Lemma embargo_window w pre : forall st post i tok,
  tokens st !! i = Some tok -> state tok = ACTIVE ->
  isinstance_Embargo (token_template tok) = true ->
  (exists tok', tokens (run w st (pre ++ post)) !! i = Some tok' /\ state tok' = ACTIVE) ->
  exists tok1,
    tokens (run w st pre) !! i = Some tok1 /\ owner tok1 = owner tok /\
    token_template tok1 = token_template tok /\ state tok1 = ACTIVE /\
    history_grows (no_action_of (owner tok)) st (run w st pre).
Proof.
  induction pre as [|c pre IH]; intros st post i tok Hi Hs He Hend.
  - exists tok. repeat split; auto. apply history_grows_refl.
  - simpl app in Hend. rewrite run_cons in *.
    destruct (embargo_step w st c i tok Hi Hs He)
      as (tok1 & Hi1 & Ho1 & Htm1 & Hs1 & Hh1).
    destruct Hs1 as [Hs1|Hs1].
    + destruct (IH _ post i tok1 Hi1 Hs1) as (tok2 & Hi2 & Ho2 & Htm2 & Hs2 & Hh2).
      * rewrite Htm1. exact He.
      * exact Hend.
      * exists tok2. rewrite Ho1 in Ho2, Hh2. rewrite Htm1 in Htm2.
        repeat split; auto. eapply history_grows_trans; eauto.
    + destruct (run_keeps_discharged w (pre ++ post) _ i tok1 Hi1 Hs1)
        as (t' & Hi' & Hs').
      destruct Hend as (tok' & Hi'' & Hs''). congruence.
Qed.

(** C4, as the specification states it, fails for a token that is an
    embargo by its [token_type] only: [perform_action] looks for a token
    whose template is an instance of the class [Embargo].  Alice holds
    the ACTIVE token [no_borrowing_base], for which [is_embargo()] is
    true; she borrows once more, the call is not blocked and writes an
    [ACTION] entry of hers, and the token is still ACTIVE afterwards. *)
Lemma embargo_by_token_type_does_not_block :
  let st := Library.suspended_alice_base in
  let st' := run Library.world st
                 [PerformAction "Alice" "borrowItem" [("item", Library.book)]] in
  tokens st !! 1%nat = Some Library.alice_embargo_base /\
  owner Library.alice_embargo_base = Library.Alice /\
  state Library.alice_embargo_base = ACTIVE /\
  is_embargo (token_template Library.alice_embargo_base) = true /\
  isinstance_Embargo (token_template Library.alice_embargo_base) = false /\
  tokens st' !! 1%nat = Some Library.alice_embargo_base /\
  history st `prefix_of` history st' /\
  exists e,
    history st' !! length (history st) = Some e /\
    event_type e = "ACTION"%string /\
    entry_party e = Some Library.Alice.
Proof.
  cbv zeta. split; [vm_compute; reflexivity|].
  split; [reflexivity|]. split; [reflexivity|]. split; [reflexivity|].
  split; [reflexivity|]. split; [vm_compute; reflexivity|].
  split.
  { match goal with
    | |- ?l `prefix_of` ?l' => exists (drop (length l) l')
    end.
    vm_compute. reflexivity. }
  eexists. split; [vm_compute; reflexivity|]. split; reflexivity.
Qed.



(** ** C7: determinism *)

Lemma same_but_time_refl st : same_but_time st st.
Proof. split; reflexivity. Qed.

Lemma same_but_time_fields st1 st2 :
  same_but_time st1 st2 ->
  model st1 = model st2 /\ parties st1 = parties st2 /\
  artifacts st1 = artifacts st2 /\ tokens st1 = tokens st2 /\
  policy_values st1 = policy_values st2 /\ uuid_drawn st1 = uuid_drawn st2.
Proof.
  intros [H _]. destruct st1, st2. simpl in *. injection H. auto 10.
Qed.

Lemma same_but_time_intro st1 st2 :
  model st1 = model st2 -> parties st1 = parties st2 ->
  artifacts st1 = artifacts st2 -> tokens st1 = tokens st2 ->
  policy_values st1 = policy_values st2 -> uuid_drawn st1 = uuid_drawn st2 ->
  map untimed (history st1) = map untimed (history st2) ->
  same_but_time st1 st2.
Proof.
  intros. destruct st1, st2. simpl in *. subst. split; [reflexivity|assumption].
Qed.

Ltac same_fields H :=
  let Hm := fresh "Hm" in let Hp := fresh "Hp" in let Ha := fresh "Ha" in
  let Ht := fresh "Ht" in let Hv := fresh "Hv" in let Hu := fresh "Hu" in
  pose proof (same_but_time_fields _ _ H) as (Hm & Hp & Ha & Ht & Hv & Hu).

Ltac same_by H :=
  same_fields H; destruct H as [_ H];
  apply same_but_time_intro; simpl; try congruence.

Section Determinism.

Context (w1 w2 : World) (Hw : same_draws w1 w2).

Lemma same_set_artifacts st1 st2 arts :
  same_but_time st1 st2 -> same_but_time (set_artifacts st1 arts) (set_artifacts st2 arts).
Proof. intros H. same_by H. Qed.

Lemma same_set_parties st1 st2 ps :
  same_but_time st1 st2 -> same_but_time (set_parties st1 ps) (set_parties st2 ps).
Proof. intros H. same_by H. Qed.

Lemma same_set_tokens st1 st2 ts :
  same_but_time st1 st2 -> same_but_time (set_tokens st1 ts) (set_tokens st2 ts).
Proof. intros H. same_by H. Qed.

Lemma same_set_uuid_drawn st1 st2 n :
  same_but_time st1 st2 -> same_but_time (set_uuid_drawn st1 n) (set_uuid_drawn st2 n).
Proof. intros H. same_by H. Qed.

Lemma same_tracer_log st1 st2 ty d :
  same_but_time st1 st2 ->
  same_but_time (tracer_log w1 st1 ty d) (tracer_log w2 st2 ty d).
Proof.
  intros H. same_by H. rewrite !map_app, H. reflexivity.
Qed.

Lemma same_create_party st1 st2 name role_names :
  same_but_time st1 st2 ->
  same_outcome (create_party st1 name role_names) (create_party st2 name role_names).
Proof.
  intros H. same_fields H. unfold create_party. rewrite <- Hp, <- Hm.
  destruct (parties st1 !! name); [exact H|].
  destruct role_names; [apply same_set_parties, H|].
  destruct (communities (model st1) !! 0%nat); [|split; [reflexivity|exact H]].
  destruct (forallb _ _); [apply same_set_parties, H | exact H].
Qed.

Lemma same_create_artifact_instance st1 st2 ty id props :
  same_but_time st1 st2 ->
  same_outcome (create_artifact_instance st1 ty id props)
               (create_artifact_instance st2 ty id props).
Proof.
  intros H. same_fields H. unfold create_artifact_instance. rewrite <- Ha, <- Hm.
  destruct (artifacts st1 !! id); [exact H|].
  destruct (communities (model st1) !! 0%nat); [|split; [reflexivity|exact H]].
  destruct (get_artifact _ _); [apply same_set_artifacts, H | exact H].
Qed.

Lemma same_create_then_get st1 st2 ty id props kwargs key :
  same_but_time st1 st2 ->
  same_builtin
    (match create_artifact_instance st1 ty id props with
     | Raised e st2' => Raised e (st2', kwargs)
     | Returned st2' =>
         match artifacts_getitem st2' id with
         | None => Raised KeyError (st2', kwargs)
         | Some x => Returned (st2', dict_set kwargs key (VArtifact x))
         end
     end)
    (match create_artifact_instance st2 ty id props with
     | Raised e st2' => Raised e (st2', kwargs)
     | Returned st2' =>
         match artifacts_getitem st2' id with
         | None => Raised KeyError (st2', kwargs)
         | Some x => Returned (st2', dict_set kwargs key (VArtifact x))
         end
     end).
Proof.
  intros H. pose proof (same_create_artifact_instance st1 st2 ty id props H) as Hc.
  destruct (create_artifact_instance st1 ty id props) as [s1|e1 s1],
           (create_artifact_instance st2 ty id props) as [s2|e2 s2];
    simpl in Hc; try contradiction; [|exact Hc].
  same_fields Hc. unfold artifacts_getitem. rewrite <- Ha.
  destruct (artifacts s1 !! id); simpl; auto.
Qed.

Lemma same_builtin_effects st1 st2 party act kwargs :
  same_but_time st1 st2 ->
  same_builtin (builtin_effects w1 st1 party act kwargs)
               (builtin_effects w2 st2 party act kwargs).
Proof.
  intros H. same_fields H. destruct Hw as [_ Huuid].
  unfold builtin_effects, draw_uuid. rewrite <- Hu, <- Huuid, <- Ha.
  repeat case_bool_decide.
  - apply same_create_then_get, same_set_uuid_drawn, H.
  - destruct (truthy _); [|simpl; auto].
    destruct (dict_get_default kwargs "loan" VNone); simpl; auto.
    destruct (artifacts st1 !! instance_id a); simpl; auto.
    split; [apply same_set_artifacts, H | reflexivity].
  - destruct (match dict_get_default kwargs "loan" VNone with
              | VArtifact a => ArtifactInstance_getattr a "borrower"
              | _ => None
              end).
    + apply same_create_then_get, same_set_uuid_drawn, H.
    + simpl. split; [reflexivity | apply same_set_uuid_drawn, H].
  - simpl. auto.
Qed.

Lemma same_delegation_block st1 st2 party act kwargs :
  same_but_time st1 st2 ->
  same_block (delegation_block w1 st1 party act kwargs)
             (delegation_block w2 st2 party act kwargs).
Proof.
  intros H. same_fields H. unfold delegation_block. rewrite <- Ht.
  destruct (action_class act); try exact H.
  destruct (delegation_recipient _ _) as [e|[r|]]; simpl; auto.
  destruct (find_indexed _ _) as [[i t]|]; [|exact H].
  apply same_tracer_log, same_set_tokens, H.
Qed.

Lemma same_mint_tokens templates : forall st1 st2 party kwargs,
  same_but_time st1 st2 ->
  same_but_time (mint_tokens w1 st1 party templates kwargs)
                (mint_tokens w2 st2 party templates kwargs).
Proof.
  induction templates as [|tmpl rest IH]; intros st1 st2 party kwargs H; simpl;
    [exact H|].
  same_fields H. destruct Hw as [_ Huuid]. rewrite <- Hu, <- Huuid, <- Ht.
  apply IH. apply same_tracer_log, same_set_tokens, same_set_uuid_drawn, H.
Qed.

Lemma same_fire_loop ev todo : forall st1 st2 done,
  same_but_time st1 st2 ->
  same_but_time (fire_loop w1 ev st1 done todo) (fire_loop w2 ev st2 done todo).
Proof.
  induction todo as [|t rest IH]; intros st1 st2 done H; simpl.
  - apply same_set_tokens, H.
  - destruct (fire_token ev t) as [t' changed]. apply IH.
    destruct changed; [apply same_tracer_log, H | exact H].
Qed.

Lemma same_emit_trigger_event st1 st2 act :
  same_but_time st1 st2 ->
  same_but_time (emit_trigger_event w1 st1 act) (emit_trigger_event w2 st2 act).
Proof.
  intros H. unfold emit_trigger_event, _fire_event.
  destruct (trigger_event act); [|exact H].
  same_fields H. rewrite <- Ht. apply same_fire_loop, H.
Qed.

Lemma same_perform_permitted st1 st2 party act kwargs :
  same_but_time st1 st2 ->
  same_outcome (perform_permitted w1 st1 party act kwargs)
               (perform_permitted w2 st2 party act kwargs).
Proof.
  intros H. unfold perform_permitted, perform_until_event, log_action.
  match goal with
  | |- context [tracer_log w1 st1 ?ty ?d] =>
      pose proof (same_builtin_effects _ _ party act kwargs
                    (same_tracer_log st1 st2 ty d H)) as Hb
  end.
  destruct (builtin_effects w1 _ party act kwargs) as [[s1 k1]|e1 [s1 k1]],
           (builtin_effects w2 _ party act kwargs) as [[s2 k2]|e2 [s2 k2]];
    simpl in Hb; try contradiction; [|exact Hb].
  destruct Hb as [Hs ->].
  pose proof (same_delegation_block s1 s2 party act k2 Hs) as Hd.
  destruct (delegation_block w1 s1 party act k2),
           (delegation_block w2 s2 party act k2);
    simpl in Hd; try contradiction; simpl; auto.
  apply same_emit_trigger_event. unfold speech_act_block.
  destruct (isinstance_SpeechAct act); [apply same_mint_tokens, Hd | exact Hd].
Qed.

Lemma same_perform_action st1 st2 name action kwargs :
  same_but_time st1 st2 ->
  same_outcome (perform_action w1 st1 name action kwargs)
               (perform_action w2 st2 name action kwargs).
Proof.
  intros H. same_fields H. unfold perform_action. rewrite <- Hp.
  destruct (parties st1 !! name) as [party|]; [|exact H].
  destruct (Party_get_action party action) as [act|]; [|exact H].
  unfold blocking_embargo. rewrite <- Ht.
  destruct (find _ _); [apply same_tracer_log, H|].
  assert (Hctx : guard_context st1 party kwargs = guard_context st2 party kwargs)
    by (unfold guard_context; rewrite Ha, Hv; reflexivity).
  destruct (guard act) as [g|]; [|apply same_perform_permitted, H].
  unfold Guard_evaluate. rewrite <- Hctx, <- (proj1 Hw).
  destruct (py_eval w1 (raw g) _) as [e|[|]]; simpl.
  - destruct (is_Exception e); simpl; [apply same_tracer_log, H | auto].
  - apply same_perform_permitted, H.
  - apply same_tracer_log, H.
Qed.

Lemma same_outcome_state o1 o2 :
  same_outcome o1 o2 -> same_but_time (outcome_state o1) (outcome_state o2).
Proof. destruct o1, o2; simpl; tauto. Qed.

Lemma same_run calls : forall st1 st2,
  same_but_time st1 st2 -> same_but_time (run w1 st1 calls) (run w2 st2 calls).
Proof.
  induction calls as [|c rest IH]; intros st1 st2 H; [exact H|].
  rewrite !run_cons. apply IH, same_outcome_state.
  destruct c; simpl.
  - apply same_create_party, H.
  - apply same_create_artifact_instance, H.
  - apply same_perform_action, H.
Qed.

End Determinism.




(** * Further properties of the engine *)

(** ** What a run never changes *)

Lemma set_owner_same t : set_owner t (owner t) = t.
Proof. destruct t. reflexivity. Qed.

Lemma exec_call_setting w st c :
  let st' := outcome_state (exec_call w st c) in
  model st' = model st /\ policy_values st' = policy_values st /\
  (forall name p, parties st !! name = Some p -> parties st' !! name = Some p) /\
  (parties_well_keyed st -> parties_well_keyed st').
Proof.
  destruct c as [name role_names|ty id props|name action kwargs]; simpl.
  - pose proof (create_party_frame st name role_names) as (Hm & Hv & _).
    split; [exact Hm|]. split; [exact Hv|].
    unfold create_party, parties_well_keyed.
    destruct (parties st !! name) as [q|] eqn:Hq; [simpl; auto|].
    assert (Hins : forall roles,
      (forall n p, parties st !! n = Some p ->
                   <[name := mkParty name roles []]> (parties st) !! n = Some p) /\
      ((forall n p, parties st !! n = Some p -> party_name p = n) ->
       forall n p, <[name := mkParty name roles []]> (parties st) !! n = Some p ->
                   party_name p = n)).
    { intros roles. split.
      - intros n p Hn. rewrite lookup_insert_ne; [exact Hn | congruence].
      - intros Hk n p. destruct (decide (name = n)) as [->|Hne].
        + rewrite lookup_insert_eq. intros [= <-]. reflexivity.
        + rewrite lookup_insert_ne by assumption. apply Hk. }
    destruct role_names; [simpl; apply Hins|].
    destruct (communities (model st) !! 0%nat); [|simpl; auto].
    destruct (forallb _ _); simpl; [apply Hins | auto].
  - pose proof (create_artifact_instance_frame st ty id props)
      as ((Hm & Hp & Hv) & _).
    unfold parties_well_keyed. rewrite Hp. auto.
  - assert (Hs : same_setting st (outcome_state (perform_action w st name action kwargs))).
    { destruct (perform_action_case w st name action kwargs); simpl;
        try (repeat split; fail).
      apply perform_permitted_effect. }
    destruct Hs as (Hm & Hp & Hv). unfold parties_well_keyed. rewrite Hp. auto.
Qed.

(** The model and the policy values are those the engine was built
    with, whatever the driver calls. *)
Theorem run_keeps_model_and_policy_values (w : World) (st : Engine) (calls : list Call) :
  model (run w st calls) = model st /\
  policy_values (run w st calls) = policy_values st.
Proof.
  revert st. induction calls as [|c rest IH]; intros st; [auto|].
  rewrite run_cons. destruct (IH (outcome_state (exec_call w st c))) as [-> ->].
  pose proof (exec_call_setting w st c) as (Hm & Hv & _). auto.
Qed.

(** A party, once created, is never removed nor replaced. *)
Theorem run_keeps_parties (w : World) (st : Engine) (calls : list Call)
    (name : string) (p : Party) :
  parties st !! name = Some p -> parties (run w st calls) !! name = Some p.
Proof.
  revert st. induction calls as [|c rest IH]; intros st Hp; [exact Hp|].
  rewrite run_cons. apply IH. apply (exec_call_setting w st c), Hp.
Qed.

Lemma run_keeps_parties_witness :
  parties (run Library.world Library.engine0 Library.during_suspension) !! "Alice" =
  Some Library.Alice.
Proof.
  apply (run_keeps_parties Library.world Library.engine0 Library.during_suspension).
  reflexivity.
Defined.

(** In every engine reached from a fresh one, each party is registered
    under its own name: [parties[n].name == n]. *)
Theorem reachable_parties_well_keyed (w : World) (m : Model) (calls : list Call) :
  parties_well_keyed (run w (Engine_init m) calls).
Proof.
  assert (H : forall st, parties_well_keyed st -> parties_well_keyed (run w st calls)).
  { induction calls as [|c rest IH]; intros st Hk; [exact Hk|].
    rewrite run_cons. apply IH. apply (exec_call_setting w st c), Hk. }
  apply H. intros name p Hp. unfold Engine_init in Hp. simpl in Hp.
  rewrite lookup_empty in Hp. discriminate.
Qed.

(** ** The trace *)

(** The trace is append-only: what was recorded before a run is a prefix
    of what is recorded after it. *)
Theorem run_appends_to_history (w : World) (st : Engine) (calls : list Call) :
  history st `prefix_of` history (run w st calls).
Proof.
  revert st. induction calls as [|c rest IH]; intros st; [reflexivity|].
  rewrite run_cons. etrans; [|apply IH].
  destruct (exec_call_effect w st c) as (_ & _ & new & -> & _).
  apply prefix_app_r. reflexivity.
Qed.

(** One [perform_action] appends nothing (unknown party or action), or
    one [ACTION_PROHIBITED] entry, or one [ACTION] entry followed by
    [TOKEN_CREATE] and [TOKEN_STATE_CHANGE] entries only; the entry names
    the performing party. *)
Theorem perform_action_entries (w : World) (st : Engine) (name action : string)
    (kwargs : Dict) :
  exists new,
    history (outcome_state (perform_action w st name action kwargs)) =
      history st ++ new /\
    call_entries (parties st !! name) new.
Proof.
  destruct (perform_action_case w st name action kwargs)
    as [Hu|party act tok Hp Ha Hb|party act g Hp Ha Hb Hg He
        |party act g e Hp Ha Hb Hg He|party act Hp Ha Hb Hg];
    simpl.
  - exists []. rewrite app_nil_r. split; [reflexivity|]. left. reflexivity.
  - eexists. split; [reflexivity|]. right. left. eexists. rewrite Hp.
    repeat split.
  - eexists. split; [reflexivity|]. right. left. eexists. rewrite Hp.
    repeat split.
  - exists []. rewrite app_nil_r. split; [reflexivity|]. left. reflexivity.
  - pose proof (perform_permitted_effect w st party act kwargs)
      as (_ & (hnew & Hh & Hf) & _).
    eexists. split; [exact Hh|]. right. right. eexists _, _. rewrite Hp.
    repeat split. exact Hf.
Qed.

(** ** The life of one token *)

Lemma delegated_lookup_exact party act kwargs ts ts1 i t :
  delegated party act kwargs ts ts1 -> ts !! i = Some t ->
  exists p, (p = owner t \/ state t = ACTIVE) /\ ts1 !! i = Some (set_owner t p).
Proof.
  intros [->|(j & tj & r & Hj & Ho & Hs & _ & _ & ->)] Hi.
  - exists (owner t). rewrite set_owner_same. auto.
  - destruct (decide (j = i)) as [->|Hne].
    + assert (tj = t) as -> by congruence.
      exists r. rewrite list_lookup_insert_eq by (eapply lookup_lt_Some; eauto).
      auto.
    + exists (owner t). rewrite set_owner_same, list_lookup_insert_ne by assumption.
      auto.
Qed.

Lemma emitted_lookup_exact act ts ts' i t :
  emitted act ts ts' -> ts !! i = Some t ->
  ts' !! i = Some t \/ exists ev, ts' !! i = Some (fire_token ev t).1.
Proof.
  intros [->|(ev & _ & ->)] Hi; [auto|].
  right. exists ev. rewrite list_lookup_fmap, Hi. reflexivity.
Qed.

Lemma rewritten_refl t : rewritten t t.
Proof. exists (owner t). rewrite set_owner_same. auto. Qed.

(** Every token stays at its position through a call and is at most
    [rewritten]. *)
Lemma exec_call_rewrites w st c i t :
  tokens st !! i = Some t ->
  exists t', tokens (outcome_state (exec_call w st c)) !! i = Some t' /\ rewritten t t'.
Proof.
  intros Hi.
  assert (Hsame : forall st', tokens st' = tokens st ->
            exists t', tokens st' !! i = Some t' /\ rewritten t t').
  { intros st' ->. exists t. auto using rewritten_refl. }
  destruct c as [name role_names|ty id props|name action kwargs]; simpl.
  - apply Hsame, (create_party_frame st name role_names).
  - apply Hsame, (create_artifact_instance_frame st ty id props).
  - destruct (perform_action_case w st name action kwargs)
      as [Hu|party act tok Hp Ha Hb|party act g Hp Ha Hb Hg He
          |party act g e Hp Ha Hb Hg He|party act Hp Ha Hb Hg];
      simpl; try (apply Hsame; reflexivity).
    pose proof (perform_permitted_effect w st party act kwargs)
      as (_ & _ & ts1 & new & Hdel & _ & _ & Hem).
    destruct (delegated_lookup_exact _ _ _ _ _ _ _ Hdel Hi) as (p & Hp' & Hi1).
    assert (Hi1' : (ts1 ++ new) !! i = Some (set_owner t p))
      by (apply lookup_app_l_Some, Hi1).
    destruct (emitted_lookup_exact _ _ _ _ _ Hem Hi1') as [Hi'|(ev & Hi')];
      eexists; (split; [exact Hi'|]); exists p; eauto.
Qed.

(** A property of tokens that no rewriting breaks holds along runs. *)
Lemma run_token_invariant w (P : DeonticTokenInstance -> Prop) :
  (forall t t', P t -> rewritten t t' -> P t') ->
  forall calls st i t,
    tokens st !! i = Some t -> P t ->
    exists t', tokens (run w st calls) !! i = Some t' /\ P t'.
Proof.
  intros Hstep. induction calls as [|c rest IH]; intros st i t Hi HP.
  - exists t. auto.
  - rewrite run_cons.
    destruct (exec_call_rewrites w st c i t Hi) as (t1 & Hi1 & Hr).
    eapply IH; eauto.
Qed.

(** Tokens are never removed nor moved, and nothing but their owner and
    their state is ever written: after any run the token at a position
    has the template, the instance id and the context it had before. *)
Theorem run_keeps_token_identity (w : World) (st : Engine) (calls : list Call)
    (i : nat) (t : DeonticTokenInstance) :
  tokens st !! i = Some t ->
  exists t',
    tokens (run w st calls) !! i = Some t' /\
    token_template t' = token_template t /\
    token_instance_id t' = token_instance_id t /\
    context t' = context t.
Proof.
  intros Hi.
  apply (run_token_invariant w
           (fun t' => token_template t' = token_template t /\
                      token_instance_id t' = token_instance_id t /\
                      context t' = context t) ) with (st := st) (i := i) (t := t);
    [|exact Hi|auto].
  intros t1 t2 (Htm & Hid & Hc) (p & _ & [->|(ev & ->)]).
  - simpl. auto.
  - pose proof (fire_token_frame ev (set_owner t1 p)) as (-> & _ & -> & ->).
    simpl. auto.
Qed.

Lemma run_keeps_token_identity_witness :
  exists t',
    tokens (run Library.world Library.suspended_alice Library.during_suspension)
      !! 1%nat = Some t' /\
    token_instance_id t' = "token-000002"%string.
Proof.
  destruct (run_keeps_token_identity Library.world Library.suspended_alice
              Library.during_suspension 1 Library.alice_embargo)
    as (t' & Hi & _ & Hid & _); [reflexivity|].
  exists t'. split; [exact Hi | exact Hid].
Defined.

(** A token minted from a template without activation trigger is never
    activated: while INACTIVE it is left exactly as it is by every run
    (state, owner and all), so it can be neither delegated nor
    discharged. *)
Theorem token_without_trigger_stays_inactive (w : World) (st : Engine)
    (calls : list Call) (i : nat) (t : DeonticTokenInstance) :
  tokens st !! i = Some t ->
  activation_trigger (token_template t) = None ->
  state t = INACTIVE ->
  tokens (run w st calls) !! i = Some t.
Proof.
  intros Hi Htr Hs.
  destruct (run_token_invariant w (fun t' => t' = t)) with (calls := calls)
    (st := st) (i := i) (t := t) as (t' & Hi' & ->); auto.
  intros t1 t2 -> (p & [->|Hact] & Hrw); [|congruence].
  rewrite set_owner_same in Hrw. destruct Hrw as [->|(ev & ->)]; [reflexivity|].
  unfold fire_token. rewrite Hs, Htr. simpl. reflexivity.
Qed.

(** The reading-room permit granted by Libby is still INACTIVE after
    further calls. *)
Lemma token_without_trigger_stays_inactive_witness :
  let st := run Library.world Library.engine0
              [PerformAction "Libby" "grantReadingRoom" []] in
  exists t,
    tokens st !! 0%nat = Some t /\
    tokens (run Library.world st
              [PerformAction "Alice" "borrowItem" [("item", Library.book)];
               PerformAction "Bob" "proxy_return_item" []]) !! 0%nat = Some t /\
    state t = INACTIVE.
Proof.
  cbv zeta. eexists. split; [vm_compute; reflexivity|]. split; [|reflexivity].
  apply token_without_trigger_stays_inactive; reflexivity.
Defined.

(** DISCHARGED is terminal and the token is inert: after any run a
    DISCHARGED token is exactly what it was, owner included. *)
Theorem discharged_token_is_inert (w : World) (st : Engine) (calls : list Call)
    (i : nat) (t : DeonticTokenInstance) :
  tokens st !! i = Some t ->
  state t = DISCHARGED ->
  tokens (run w st calls) !! i = Some t.
Proof.
  intros Hi Hs.
  destruct (run_token_invariant w (fun t' => t' = t)) with (calls := calls)
    (st := st) (i := i) (t := t) as (t' & Hi' & ->); auto.
  intros t1 t2 -> (p & [->|Hact] & Hrw); [|congruence].
  rewrite set_owner_same in Hrw. destruct Hrw as [->|(ev & ->)]; [reflexivity|].
  unfold fire_token. rewrite Hs. simpl. reflexivity.
Qed.

(** A token is discharged only by an event that alone satisfies its
    finish expression ([_fire_event] evaluates it on the one-element set
    of the fired event): if no single event does, or there is no finish
    expression, the token is never DISCHARGED. *)
Theorem token_that_never_finishes (w : World) (st : Engine) (calls : list Call)
    (i : nat) (t : DeonticTokenInstance) :
  tokens st !! i = Some t ->
  never_finishes (token_template t) ->
  state t <> DISCHARGED ->
  exists t', tokens (run w st calls) !! i = Some t' /\ state t' <> DISCHARGED.
Proof.
  intros Hi Hnf Hs.
  destruct (run_token_invariant w
              (fun t' => token_template t' = token_template t /\
                         state t' <> DISCHARGED)) with (calls := calls)
    (st := st) (i := i) (t := t) as (t' & Hi' & _ & Hs'); eauto.
  intros t1 t2 (Htm & Hs1) (p & _ & [->|(ev & ->)]); [simpl; auto|].
  pose proof (fire_token_frame ev (set_owner t1 p)) as (-> & _).
  simpl. split; [exact Htm|].
  unfold fire_token. simpl. unfold never_finishes in Hnf. rewrite <- Htm in Hnf.
  destruct (bool_decide (state t1 = INACTIVE) && _); [simpl; discriminate|].
  destruct (bool_decide (state t1 = ACTIVE)); [|exact Hs1].
  destruct (finish_expression (token_template t1)) as [fe|]; [|exact Hs1].
  rewrite Hnf. exact Hs1.
Qed.

Lemma discharged_token_is_inert_witness :
  tokens (run Library.world Library.returned
            [PerformAction "Bob" "proxy_return_item" [("loan", Library.the_loan)];
             PerformAction "Alice" "borrowItem" [("item", Library.book)]]) !! 0%nat =
  Some Library.bob_burden_done.
Proof.
  apply (discharged_token_is_inert Library.world Library.returned); reflexivity.
Defined.

(** A conjunction of two different events is satisfied by no single
    event. *)
Lemma two_events_never_finish e1 e2 :
  e1 <> e2 ->
  forall ev, evaluate (EE (Some "AND") [OpEvent e1; OpEvent e2]) [ev] = false.
Proof.
  intros Hne ev. simpl. unfold occurred_mem.
  destruct (decide (e1 = ev)) as [->|H1].
  - rewrite (bool_decide_eq_false_2 (e2 ∈ [ev])); [apply andb_false_r|].
    intros Hin. apply list_elem_of_singleton in Hin. congruence.
  - rewrite (bool_decide_eq_false_2 (e1 ∈ [ev])); [reflexivity|].
    intros Hin. apply list_elem_of_singleton in Hin. congruence.
Qed.

(** Alice's burden waits for [itemBorrowed] and [itemReturned] together:
    borrowing and returning do not discharge it. *)
Lemma token_that_never_finishes_witness :
  exists t',
    tokens (run Library.world Library.holding_two_event_burden
              [PerformAction "Alice" "borrowItem" [("item", Library.book)];
               PerformAction "Bob" "proxy_return_item" []]) !! 0%nat = Some t' /\
    state t' <> DISCHARGED.
Proof.
  apply (token_that_never_finishes Library.world Library.holding_two_event_burden
           _ 0 Library.two_event_burden).
  - reflexivity.
  - unfold never_finishes. simpl. apply two_events_never_finish. discriminate.
  - discriminate.
Defined.

(** ** Event expressions *)

Lemma evaluate_unfold o ops occ :
  evaluate (EE o ops) occ =
  if is_leaf (EE o ops) then
    match ops with
    | OpEvent ev :: _ => occurred_mem ev occ
    | _ => false
    end
  else
    let operand_holds (x : Operand EventExpression) :=
      match x with
      | OpExpr sub => evaluate sub occ
      | OpEvent ev => occurred_mem ev occ
      end in
    if bool_decide (o = Some "AND"%string) then forallb operand_holds ops
    else if bool_decide (o = Some "OR"%string) then existsb operand_holds ops
    else false.
Proof.
  destruct o as [o|]; [reflexivity|].
  destruct ops as [|[ev|sub] [|x rest]]; reflexivity.
Qed.

(** [evaluate] has no negation: an expression that holds for a set of
    occurred events holds for every larger set.  In particular it depends
    on the set only, not on the order or the repetitions of a listing. *)
Theorem evaluate_monotone (e : EventExpression) (occurred occurred' : list Event) :
  (forall ev, ev ∈ occurred -> ev ∈ occurred') ->
  evaluate e occurred = true -> evaluate e occurred' = true.
Proof.
  intros Hsub. revert e. fix IH 1. intros [o ops].
  rewrite !evaluate_unfold.
  assert (Hmem : forall ev, occurred_mem ev occurred = true ->
                            occurred_mem ev occurred' = true).
  { intros ev. unfold occurred_mem. rewrite !bool_decide_eq_true. apply Hsub. }
  destruct (is_leaf (EE o ops)).
  - destruct ops as [|[ev|sub] rest]; auto.
  - cbv zeta.
    assert (Hop : forall x : Operand EventExpression,
      match x with
      | OpExpr sub => evaluate sub occurred
      | OpEvent ev => occurred_mem ev occurred
      end = true ->
      match x with
      | OpExpr sub => evaluate sub occurred'
      | OpEvent ev => occurred_mem ev occurred'
      end = true).
    { intros [ev|sub]; [apply Hmem | apply IH]. }
    destruct (bool_decide (o = Some "AND"%string)).
    + clear -Hop. induction ops as [|x rest IHops]; simpl; [auto|].
      rewrite !andb_true_iff. intros [Hx Hrest]. auto.
    + destruct (bool_decide (o = Some "OR"%string)); [|auto].
      clear -Hop. induction ops as [|x rest IHops]; simpl; [auto|].
      rewrite !orb_true_iff. intros [Hx|Hrest]; auto.
Qed.

Lemma evaluate_monotone_witness :
  evaluate (EE (Some "OR") [OpEvent Library.itemReturned; OpEvent Library.suspended])
           [Library.itemBorrowed; Library.itemReturned] = true.
Proof.
  apply (evaluate_monotone _ [Library.itemReturned]).
  - intros ev Hev. apply elem_of_cons. right. exact Hev.
  - reflexivity.
Defined.

(** The edge cases of [evaluate]: an AND without operands holds, an OR
    without operands does not, and an expression that is neither a leaf
    nor an AND nor an OR (an unknown operator, or no operator around
    anything but a single event) does not hold. *)
Theorem evaluate_edge_cases (occurred : list Event) :
  evaluate (EE (Some "AND") []) occurred = true /\
  evaluate (EE (Some "OR") []) occurred = false /\
  forall o ops,
    o <> Some "AND"%string -> o <> Some "OR"%string ->
    is_leaf (EE o ops) = false ->
    evaluate (EE o ops) occurred = false.
Proof.
  split; [reflexivity|]. split; [reflexivity|].
  intros o ops Hand Hor Hleaf. rewrite evaluate_unfold, Hleaf. cbv zeta.
  rewrite !bool_decide_eq_false_2 by assumption. reflexivity.
Qed.

(** ** The name indexes of a community and the policy values *)

Lemma build_index_ok {A : Type} (name : A -> string) (items : list A) :
  forall index,
    NoDup (map name items) ->
    (forall x, x ∈ items -> index !! name x = None) ->
    exists index',
      build_index name items index = Returned index' /\
      forall n y, index' !! n = Some y <->
                  (y ∈ items /\ name y = n) \/ index !! n = Some y.
Proof.
  induction items as [|x rest IH]; intros index Hnd Hfresh; simpl.
  - exists index. split; [reflexivity|]. intros n y. split; [auto|].
    intros [[Hin _]|H]; [apply elem_of_nil in Hin; contradiction | exact H].
  - rewrite (Hfresh x) by (apply elem_of_cons; auto).
    apply NoDup_cons in Hnd as [Hnin Hnd].
    destruct (IH (<[name x := x]> index) Hnd) as (index' & Hb & Hlook).
    { intros y Hy. rewrite lookup_insert_ne.
      - apply Hfresh, elem_of_cons. auto.
      - intros Heq. apply Hnin. rewrite Heq. apply list_elem_of_fmap. eauto. }
    exists index'. split; [exact Hb|]. intros n y. rewrite Hlook.
    rewrite elem_of_cons. split.
    + intros [[Hin Hn]|Hins]; [auto|].
      apply lookup_insert_Some in Hins as [[Hn ->]|[_ Hold]]; auto.
    + intros [[[->|Hin] Hn]|Hold]; [|auto|].
      * right. rewrite <- Hn. apply lookup_insert_eq.
      * destruct (decide (name x = n)) as [Heq|Hne].
        -- rewrite <- Heq, Hfresh in Hold by (apply elem_of_cons; auto).
           discriminate.
        -- right. rewrite lookup_insert_ne by assumption. exact Hold.
Qed.

(** [build_indexes] returns normally exactly when the role names, the
    artifact names and the event names of the community are each without
    repetition. *)
Theorem build_indexes_returns_iff_unique (c : Community) :
  returns (build_indexes c) = true <->
  NoDup (map role_name (roles c)) /\
  NoDup (map artifact_name (artifacts_of c)) /\
  NoDup (map event_name (events c)).
Proof.
  split.
  - unfold build_indexes.
    destruct (build_index role_name (roles c) ∅) eqn:Hr; [|discriminate].
    destruct (build_index artifact_name (artifacts_of c) ∅) eqn:Ha; [|discriminate].
    destruct (build_index event_name (events c) ∅) eqn:He; [|discriminate].
    intros _.
    apply build_index_Returned in Hr as [Hr _].
    apply build_index_Returned in Ha as [Ha _].
    apply build_index_Returned in He as [He _]. auto.
  - intros (Hr & Ha & He). unfold build_indexes.
    destruct (build_index_ok role_name (roles c) ∅ Hr) as (ri & -> & _);
      [intros; apply lookup_empty|].
    destruct (build_index_ok artifact_name (artifacts_of c) ∅ Ha) as (ai & -> & _);
      [intros; apply lookup_empty|].
    destruct (build_index_ok event_name (events c) ∅ He) as (ei & -> & _);
      [intros; apply lookup_empty|].
    reflexivity.
Qed.

(** After a [build_indexes] that returns, the lists of the community are
    as they were, and [get_role], [get_artifact] and [get_event] find
    under a name exactly the element of the list that has this name. *)
Theorem build_indexes_lookup (c c' : Community) :
  build_indexes c = Returned c' ->
  roles c' = roles c /\ artifacts_of c' = artifacts_of c /\ events c' = events c /\
  rules c' = rules c /\
  (forall n r, get_role c' n = Some r <-> r ∈ roles c /\ role_name r = n) /\
  (forall n a, get_artifact c' n = Some a <-> a ∈ artifacts_of c /\ artifact_name a = n) /\
  (forall n e, get_event c' n = Some e <-> e ∈ events c /\ event_name e = n).
Proof.
  unfold build_indexes, get_role, get_artifact, get_event.
  destruct (build_index role_name (roles c) ∅) as [ri|] eqn:Hr; [|discriminate].
  destruct (build_index artifact_name (artifacts_of c) ∅) as [ai|] eqn:Ha;
    [|discriminate].
  destruct (build_index event_name (events c) ∅) as [ei|] eqn:He; [|discriminate].
  intros [= <-]. simpl.
  pose proof (build_index_Returned _ _ _ _ Hr) as [Hnr _].
  pose proof (build_index_Returned _ _ _ _ Ha) as [Hna _].
  pose proof (build_index_Returned _ _ _ _ He) as [Hne _].
  destruct (build_index_ok role_name (roles c) ∅ Hnr) as (ri' & Hr' & Hlr);
    [intros; apply lookup_empty|].
  destruct (build_index_ok artifact_name (artifacts_of c) ∅ Hna) as (ai' & Ha' & Hla);
    [intros; apply lookup_empty|].
  destruct (build_index_ok event_name (events c) ∅ Hne) as (ei' & He' & Hle);
    [intros; apply lookup_empty|].
  assert (ri' = ri) as -> by congruence.
  assert (ai' = ai) as -> by congruence.
  assert (ei' = ei) as -> by congruence.
  do 4 (split; [reflexivity|]).
  split; [|split].
  - intros n r. rewrite Hlr, lookup_empty.
    split; [intros [H|H]; [exact H|discriminate] | auto].
  - intros n a. rewrite Hla, lookup_empty.
    split; [intros [H|H]; [exact H|discriminate] | auto].
  - intros n e. rewrite Hle, lookup_empty.
    split; [intros [H|H]; [exact H|discriminate] | auto].
Qed.

Lemma build_indexes_lookup_witness :
  get_role Library.community "Librarian" = Some Library.Librarian /\
  get_artifact Library.community "Fine" = None.
Proof.
  destruct (build_indexes_lookup Library.community_lists Library.community)
    as (_ & _ & _ & _ & Hr & Ha & _); [reflexivity|].
  split.
  - apply Hr. split; [|reflexivity]. simpl.
    apply elem_of_cons. right. apply elem_of_cons. right.
    apply elem_of_cons. left. reflexivity.
  - destruct (get_artifact Library.community "Fine") as [a|] eqn:Hf; [|reflexivity].
    apply Ha in Hf as [Hin Hn]. exfalso.
    apply elem_of_cons in Hin as [->|Hin]; [discriminate|].
    apply elem_of_cons in Hin as [->|Hin]; [discriminate|].
    apply elem_of_nil in Hin. exact Hin.
Defined.

Lemma build_policy_values_snoc ps p :
  build_policy_values (ps ++ [p]) =
  <[policy_name p := initial_value p]> (build_policy_values ps).
Proof. unfold build_policy_values. rewrite foldl_app. reflexivity. Qed.

(** The policy values of a fresh engine: under a name, the initial value
    of the last policy of that name among the rules of all communities,
    in the order of the model; nothing under a name no policy has. *)
Theorem engine_policy_values (m : Model) (n : string) :
  policy_values (Engine_init m) !! n =
  initial_value <$> last (filter (fun p => policy_name p = n) (model_policies m)).
Proof.
  unfold Engine_init. simpl.
  induction (model_policies m) as [|p ps IH] using rev_ind.
  - apply lookup_empty.
  - rewrite build_policy_values_snoc, filter_app.
    destruct (decide (policy_name p = n)) as [Heq|Hne].
    + rewrite Heq, lookup_insert_eq.
      rewrite (filter_cons_True _ p []) by exact Heq.
      rewrite filter_nil, last_snoc. reflexivity.
    + rewrite lookup_insert_ne by assumption.
      rewrite (filter_cons_False _ p []) by exact Hne.
      rewrite filter_nil, app_nil_r. exact IH.
Qed.

(** ** Roles and parties *)


Lemma find_action_Some actions name a :
  find_action actions name = Some a -> a ∈ actions /\ action_name a = name.
Proof.
  induction actions as [|x rest IH]; simpl; [discriminate|].
  case_bool_decide.
  - intros [= <-]. split; [apply elem_of_cons; auto | assumption].
  - intros Hfind. apply IH in Hfind as [Hin Hn].
    split; [apply elem_of_cons; auto | exact Hn].
Qed.

Lemma find_action_None actions name :
  find_action actions name = None <-> forall a, a ∈ actions -> action_name a <> name.
Proof.
  induction actions as [|x rest IH]; simpl.
  - split; [|reflexivity]. intros _ a Ha. apply elem_of_nil in Ha. contradiction.
  - case_bool_decide.
    + split; [discriminate|]. intros Hall. exfalso.
      apply (Hall x); [apply elem_of_cons; auto | assumption].
    + rewrite IH. split.
      * intros Hall a Ha. apply elem_of_cons in Ha as [->|Ha]; auto.
      * intros Hall a Ha. apply Hall, elem_of_cons. auto.
Qed.

(** [Party.get_action] answers with an action of the requested name that
    belongs to one of the roles the party fulfils, and with [None] exactly
    when no fulfilled role has an action of that name. *)
Theorem Party_get_action_spec (p : Party) (name : string) :
  (forall a, Party_get_action p name = Some a ->
     action_name a = name /\
     exists r, r ∈ fulfills_roles p /\ a ∈ role_actions r) /\
  (Party_get_action p name = None <->
   forall r a, r ∈ fulfills_roles p -> a ∈ role_actions r -> action_name a <> name).
Proof.
  unfold Party_get_action.
  induction (fulfills_roles p) as [|r rest [IHs IHn]]; simpl.
  - split; [discriminate|]. split; [|reflexivity].
    intros _ r a Hr. apply elem_of_nil in Hr. contradiction.
  - unfold CommunityRole_get_action.
    destruct (find_action (role_actions r) name) as [a0|] eqn:Hf.
    + split.
      * intros a [= <-]. apply find_action_Some in Hf as [Hin Hn].
        split; [exact Hn|]. exists r. split; [apply elem_of_cons; auto | exact Hin].
      * split; [discriminate|]. intros Hall. exfalso.
        apply find_action_Some in Hf as [Hin Hn].
        apply (Hall r a0); [apply elem_of_cons; auto | exact Hin | exact Hn].
    + split.
      * intros a Ha. destruct (IHs a Ha) as [Hn (r' & Hr' & Hin)].
        split; [exact Hn|]. exists r'. split; [apply elem_of_cons; auto | exact Hin].
      * rewrite IHn. split.
        -- intros Hall r' a Hr' Ha. apply elem_of_cons in Hr' as [->|Hr'].
           ++ eapply find_action_None; eauto.
           ++ eapply Hall; eauto.
        -- intros Hall r' a Hr' Ha. eapply Hall; [apply elem_of_cons; eauto | exact Ha].
Qed.

Lemma first_some_Some {A B : Type} (f : A -> option B) (l : list A) y :
  first_some f l = Some y -> exists x, x ∈ l /\ f x = Some y.
Proof.
  induction l as [|x rest IH]; simpl; [discriminate|].
  destruct (f x) as [z|] eqn:Hf.
  - intros [= <-]. exists x. split; [apply elem_of_cons; auto | exact Hf].
  - intros H. destruct (IH H) as (x' & Hin & Hx').
    exists x'. split; [apply elem_of_cons; auto | exact Hx'].
Qed.

(** The owner of a new token is the performer, or else a party that
    fulfils the affected role of the template and is a keyword argument
    of the call or a property of an artifact instance passed to it.  A
    template without affected role always gives the performer. *)
Theorem resolve_token_owner_spec (tmpl : DeonticToken) (performer : Party)
    (kwargs : Dict) :
  (affected_role tmpl = None -> _resolve_token_owner tmpl performer kwargs = performer) /\
  (_resolve_token_owner tmpl performer kwargs = performer \/
   exists role,
     affected_role tmpl = Some role /\
     has_role (_resolve_token_owner tmpl performer kwargs) role = true /\
     (VParty (_resolve_token_owner tmpl performer kwargs) ∈ dict_values kwargs \/
      exists a, VArtifact a ∈ dict_values kwargs /\
                VParty (_resolve_token_owner tmpl performer kwargs)
                  ∈ dict_values (properties a))).
Proof.
  unfold _resolve_token_owner.
  destruct (affected_role tmpl) as [role|]; [|auto].
  split; [discriminate|].
  destruct (first_some _ (dict_values kwargs)) as [o|] eqn:Hf; simpl; [|auto].
  right. exists role. split; [reflexivity|].
  assert (Hpw : forall v q, party_with_role role v = Some q ->
                            v = VParty q /\ has_role q role = true).
  { intros v q. unfold party_with_role. destruct v; try discriminate.
    destruct (has_role p role) eqn:Hr; [|discriminate]. intros [= <-]. auto. }
  apply first_some_Some in Hf as (arg & Hin & Harg).
  destruct arg; try discriminate.
  - apply Hpw in Harg as [[= ->] Hr]. auto.
  - apply first_some_Some in Harg as (v & Hv & Hq).
    apply Hpw in Hq as [-> Hr]. split; [exact Hr|]. right. eauto.
Qed.

(** ** Creating parties and artifact instances *)

Lemma resolved_roles (c : Community) (role_names : list string) :
  (forall n r, get_role c n = Some r -> role_name r = n) ->
  Forall (fun n => is_Some (get_role c n)) role_names ->
  map role_name (omap id (map (get_role c) role_names)) = role_names /\
  forallb (fun r : option CommunityRole => bool_decide (is_Some r))
          (map (get_role c) role_names) = true.
Proof.
  intros Hwf. induction 1 as [|n rest [r Hr] _ [IH1 IH2]]; simpl; [auto|].
  rewrite Hr. simpl.
  change (list_omap (option CommunityRole) CommunityRole id (map (get_role c) rest))
    with (omap id (map (get_role c) rest)).
  rewrite IH1, IH2, (Hwf _ _ Hr). auto.
Qed.

Lemma unresolved_roles (c : Community) (role_names : list string) :
  ~ Forall (fun n => is_Some (get_role c n)) role_names ->
  forallb (fun r : option CommunityRole => bool_decide (is_Some r))
          (map (get_role c) role_names) = false.
Proof.
  intros Hn. destruct (forallb _ _) eqn:Hf; [|reflexivity].
  exfalso. apply Hn. rewrite forallb_forall in Hf.
  apply Forall_forall. intros n Hin.
  specialize (Hf (get_role c n)). rewrite bool_decide_eq_true in Hf.
  apply Hf, in_map, list_elem_of_In, Hin.
Qed.

(** With the indexes of the first community built, [create_party]
    always returns.  If the name is free and every role name is known, it
    registers under the name a party of that name that fulfils exactly the
    requested roles, in order; otherwise (name taken, or some role
    unknown) it leaves the engine as it is. *)
Theorem create_party_registers (st : Engine) (name : string)
    (role_names : list string) (c : Community) :
  communities (model st) !! 0%nat = Some c ->
  (forall n r, get_role c n = Some r -> role_name r = n) ->
  (parties st !! name = None /\ Forall (fun n => is_Some (get_role c n)) role_names ->
   exists p,
     create_party st name role_names =
       Returned (set_parties st (<[name := p]> (parties st))) /\
     party_name p = name /\
     map role_name (fulfills_roles p) = role_names /\
     forall n, has_role p n = true <-> n ∈ role_names) /\
  (~ (parties st !! name = None /\
      Forall (fun n => is_Some (get_role c n)) role_names) ->
   create_party st name role_names = Returned st).
Proof.
  intros Hc Hwf. unfold create_party. split.
  - intros [Hfree Hall]. rewrite Hfree.
    assert (Hrole : forall roles : list CommunityRole,
      map role_name roles = role_names ->
      forall n, has_role (mkParty name roles []) n = true <-> n ∈ role_names).
    { intros roles <- n. unfold has_role. simpl. rewrite existsb_exists.
      rewrite list_elem_of_fmap. split.
      - intros (r & Hin & Hn). apply bool_decide_eq_true in Hn.
        exists r. split; [auto | apply list_elem_of_In, Hin].
      - intros (r & -> & Hin). exists r.
        split; [apply list_elem_of_In, Hin | apply bool_decide_eq_true; reflexivity]. }
    destruct role_names as [|n0 rest].
    + eexists. split; [reflexivity|]. split; [reflexivity|].
      split; [reflexivity|]. apply (Hrole [] eq_refl).
    + rewrite Hc.
      destruct (resolved_roles c (n0 :: rest) Hwf Hall) as [Hmap ->].
      eexists. split; [reflexivity|]. split; [reflexivity|].
      split; [exact Hmap|]. apply (Hrole _ Hmap).
  - intros Hnot. destruct (parties st !! name) eqn:Hp; [reflexivity|].
    destruct role_names as [|n0 rest]; [exfalso; apply Hnot; auto|].
    rewrite Hc, unresolved_roles; [reflexivity|]. tauto.
Qed.

Lemma create_party_registers_witness :
  exists p,
    create_party Library.engine0 "Carol" ["Borrower"; "Librarian"] =
      Returned (set_parties Library.engine0
                  (<["Carol" := p]> (parties Library.engine0))) /\
    map role_name (fulfills_roles p) = ["Borrower"; "Librarian"].
Proof.
  destruct (create_party_registers Library.engine0 "Carol" ["Borrower"; "Librarian"]
              Library.community) as [Hyes _].
  - reflexivity.
  - intros n r Hr.
    destruct (build_indexes_lookup Library.community_lists Library.community eq_refl)
      as (_ & _ & _ & _ & Hlook & _).
    apply Hlook in Hr as [_ Hn]. exact Hn.
  - destruct Hyes as (p & Hc & _ & Hroles & _).
    + split; [reflexivity|]. repeat constructor; eexists; reflexivity.
    + exists p. auto.
Defined.

(** The two creation commands raise in one situation only: the id (or
    name) is free, a community has to be consulted, and the model has no
    community ([communities[0]] fails). *)
Theorem creation_raises_iff (st : Engine) (name : string) (role_names : list string)
    (ty id : string) (props : Dict) :
  (returns (create_party st name role_names) = false <->
   parties st !! name = None /\ role_names <> [] /\ communities (model st) = []) /\
  (returns (create_artifact_instance st ty id props) = false <->
   artifacts st !! id = None /\ communities (model st) = []).
Proof.
  unfold create_party, create_artifact_instance. split.
  - destruct (parties st !! name) as [q|].
    { simpl. split; [discriminate|]. intros (Hq & _). discriminate. }
    destruct role_names as [|n0 rest].
    { simpl. split; [discriminate|]. intros (_ & Hne & _). congruence. }
    destruct (communities (model st)) as [|c cs]; simpl.
    + split; [|reflexivity]. intros _.
      split; [reflexivity|]. split; [discriminate|reflexivity].
    + match goal with |- context [if ?b then _ else _] => destruct b end; simpl;
        (split; [discriminate|]; intros (_ & _ & Hc); discriminate).
  - destruct (artifacts st !! id) as [a|].
    { simpl. split; [discriminate|]. intros (Ha & _). discriminate. }
    destruct (communities (model st)) as [|c cs]; simpl.
    + split; auto.
    + destruct (get_artifact c ty); simpl;
        (split; [discriminate|]; intros (_ & Hc); discriminate).
Qed.
